(** * MapReduce flight analysis: the engine, the counting job and the airport parser

    A shallow embedding of [mapreduce_framework.py], [mapreduce_jobs.py] and the
    airport part of [data_parsers.py].

    The engine runs worker threads over shared queues.  A worker is modelled by
    its control points, the pool by an interleaving of worker steps chosen by
    a scheduler, and [run] by the two pools separated by the shuffle step. *)

From stdpp Require Import base option list sorting strings gmap.
From Stdlib Require Import ZArith QArith Ascii Lia.

Open Scope Z_scope.

(** ** User callbacks

    [Mapper.map] and [Reducer.reduce] return an iterable that the worker
    consumes with a [for] loop.  The callbacks are pure and return a
    sequence, so what the worker observes of one invocation is the finitely
    many items yielded, in order, and how the iteration ends: normally,
    with [queue.Empty], or with another [Exception].  An invocation that
    raises before yielding anything has no items. *)

Inductive ending := Returns | RaisesEmpty | RaisesError.

#[global] Instance ending_eq_dec : EqDecision ending.
Proof. solve_decision. Defined.

Record generator (A : Type) := Generator {
  yields : list A;
  ending_of : ending
}.
Arguments Generator {A} _ _.
Arguments yields {A} _.
Arguments ending_of {A} _.

Definition Mapper (K V K' V' : Type) : Type := K → V → generator (K' * V').
Definition Reducer (K' V' R : Type) : Type := K' → list V' → generator R.

(** ** Worker threads

    [_map_worker] and [_reduce_worker] are the same loop
    <<
      while not q.empty():
          try:
              task = q.get(block=False)
              for item in call(task):
                  with lock: push(item)
              q.task_done()
          except queue.Empty: break
          except Exception as e: logger.error(...)
    >>
    over a queue of tasks [T], a callback yielding items [I] and a shared
    accumulator [A].  The atomic actions are the emptiness test, the
    non-blocking [get] and each locked [push]; between two of them any
    other thread may act.

    A worker is at the head of its loop ([AtLoopHead]), inside [try] before
    [get] ([AtGet]), inside the [for] loop with the items still to come and
    the way the iteration will end ([Iterating]), or out of its loop
    ([Finished]).  [get] on an empty queue raises [queue.Empty], which the
    first handler turns into [break]; that handler also covers the
    callback.  The second handler logs and goes back to the head of the
    loop. *)

Section Worker.
Context {T I A : Type}.
Variable call : T → generator I.
Variable push : I → A → A.

Inductive worker :=
| AtLoopHead
| AtGet
| Iterating (pending : list I) (e : ending)
| Finished.

Record pool := Pool {
  queue : list T;
  acc : A;
  workers : list worker
}.

Definition worker_step (w : worker) (q : list T) (a : A)
  : worker * list T * A :=
  match w with
  | AtLoopHead =>
      match q with
      | [] => (Finished, q, a)
      | _ :: _ => (AtGet, q, a)
      end
  | AtGet =>
      match q with
      | [] => (Finished, q, a)
      | t :: q' => (Iterating (yields (call t)) (ending_of (call t)), q', a)
      end
  | Iterating (x :: xs) e => (Iterating xs e, q, push x a)
  | Iterating [] Returns => (AtLoopHead, q, a)
  | Iterating [] RaisesEmpty => (Finished, q, a)
  | Iterating [] RaisesError => (AtLoopHead, q, a)
  | Finished => (Finished, q, a)
  end.

Definition is_active (w : worker) : bool :=
  match w with Finished => false | _ => true end.

Fixpoint active_from (n : nat) (ws : list worker) : list nat :=
  match ws with
  | [] => []
  | w :: ws' =>
      if is_active w then n :: active_from (S n) ws'
      else active_from (S n) ws'
  end.

Definition active (ws : list worker) : list nat := active_from 0 ws.

Definition pool_step (i : nat) (p : pool) : pool :=
  match workers p !! i with
  | None => p
  | Some w =>
      let '(w', q', a') := worker_step w (queue p) (acc p) in
      Pool q' a' (<[i := w']> (workers p))
  end.

(** The threads run until every one of them has left its loop; [join]
    then returns.  [sched n] picks, among the threads still running, the
    one that performs the [n]-th action: every interleaving of the threads
    is the run of some [sched].  A thread that has not been started yet
    behaves as one at the head of its loop that has not been scheduled
    yet, so all threads are there from the beginning.  [None]: the pool is
    still running after [fuel] actions. *)
Fixpoint exec_pool (fuel : nat) (sched : nat → nat) (n : nat) (p : pool)
  : option pool :=
  match active (workers p) with
  | [] => Some p
  | i0 :: _ =>
      match fuel with
      | O => None
      | S fuel' =>
          let act := active (workers p) in
          let i := nth (sched n mod length act)%nat act i0 in
          exec_pool fuel' sched (S n) (pool_step i p)
      end
  end.

Definition spawn (n : Z) : list worker := replicate (Z.to_nat n) AtLoopHead.

(** The steps a worker, a task and a pool may still take at most. *)
Definition worker_budget (w : worker) : nat :=
  match w with
  | AtLoopHead => 2
  | AtGet => 1
  | Iterating xs _ => length xs + 3
  | Finished => 0
  end.

Definition task_budget (t : T) : nat := length (yields (call t)) + 3.

Definition budget (p : pool) : nat :=
  sum_list_with worker_budget (workers p)
  + sum_list_with task_budget (queue p).

(** The items a worker has been given by its callback and has not pushed
    yet, and the items the queued tasks will yield. *)
Definition pending (w : worker) : list I :=
  match w with Iterating xs _ => xs | _ => [] end.

Definition queued (q : list T) : list I := q ≫= λ t, yields (call t).

Definition in_flight (content : A → list I) (p : pool) : list I :=
  content (acc p) ++ (workers p ≫= pending) ++ queued (queue p).

(** The tasks of a queue on which the callback raises [queue.Empty], and
    the workers that have left their loop or that such a task is about to
    make leave. *)
Definition empties (q : list T) : nat :=
  length (filter (λ t, ending_of (call t) = RaisesEmpty) q).

Definition stopped (w : worker) : nat :=
  match w with
  | Finished | Iterating _ RaisesEmpty => 1
  | _ => 0
  end.

(** While tasks remain in the queue, a worker only leaves through a
    [queue.Empty] of the callback: there are at most [E] such workers and
    tasks together. *)
Definition drains (E : nat) (p : pool) : Prop :=
  queue p ≠ [] →
  (sum_list_with stopped (workers p) + empties (queue p) ≤ E)%nat.

End Worker.

Arguments worker : clear implicits.
Arguments pool : clear implicits.

(** ** The shuffle table

    [shuffle_dict] is a Python [dict] from keys to lists of values; its
    iteration order is the order in which keys were first inserted.  Keys
    are hashable and compared by equality. *)

Section Dict.
Context {K' V' : Type} `{EqDecision K'}.

Definition dict := list (K' * list V').

Definition dict_contains (k : K') (d : dict) : bool :=
  bool_decide (k ∈ d.*1).

Fixpoint dict_get (k : K') (d : dict) : option (list V') :=
  match d with
  | [] => None
  | (k', vs) :: d' => if decide (k' = k) then Some vs else dict_get k d'
  end.

Fixpoint dict_setitem (k : K') (vs : list V') (d : dict) : dict :=
  match d with
  | [] => [(k, vs)]
  | (k', vs') :: d' =>
      if decide (k' = k) then (k', vs) :: d'
      else (k', vs') :: dict_setitem k vs d'
  end.

(** [d[k].append(v)], for a key that is present. *)
Fixpoint dict_append (k : K') (v : V') (d : dict) : dict :=
  match d with
  | [] => []
  | (k', vs) :: d' =>
      if decide (k' = k) then (k', vs ++ [v]) :: d'
      else (k', vs) :: dict_append k v d'
  end.

(** The body of [with self.shuffle_lock:] in [_map_worker]. *)
Definition shuffle_put (kv : K' * V') (d : dict) : dict :=
  let d1 := if dict_contains kv.1 d then d else dict_setitem kv.1 [] d in
  dict_append kv.1 kv.2 d1.

Definition dict_items (d : dict) : list (K' * list V') := d.

(** The intermediate pairs a table holds. *)
Definition pairs_of (d : dict) : list (K' * V') :=
  d ≫= λ e, (λ v, (e.1, v)) <$> e.2.

Record dict_ok (d : dict) : Prop := {
  dict_keys_nodup : NoDup d.*1;
  dict_groups_nonempty : Forall (λ e, e.2 ≠ []) d
}.

(** The values collected for one key among intermediate pairs. *)
Definition vals (k : K') (l : list (K' * V')) : list V' :=
  (filter (λ p, p.1 = k) l).*2.

End Dict.

Arguments dict : clear implicits.

(** ** The engine

    The two queues are FIFO; [shuffle_lock] and [results_lock] make each
    update of the table and of the result list one atomic action. *)

Section Framework.
Context {K V K' V' R : Type} `{EqDecision K'}.

Record MapReduceFramework := {
  num_mappers : Z;
  num_reducers : Z;
  map_queue : list (K * V);
  shuffle_dict : dict K' V';
  reduce_queue : list (K' * list V');
  results : list R
}.

(** [__init__] *)
Definition init (num_mappers num_reducers : Z) : MapReduceFramework :=
  {| num_mappers := num_mappers; num_reducers := num_reducers;
     map_queue := []; shuffle_dict := [];
     reduce_queue := []; results := [] |}.

(** [queue.Queue.put] on the FIFO queue. *)
Definition put {X : Type} (q : list X) (x : X) : list X := q ++ [x].

Definition map_call (mapper : Mapper K V K' V') (task : K * V)
  : generator (K' * V') := mapper task.1 task.2.

Definition reduce_call (reducer : Reducer K' V' R) (task : K' * list V')
  : generator R := reducer task.1 task.2.

(** [self.results.append(result)] under [results_lock]. *)
Definition results_append (r : R) (rs : list R) : list R := rs ++ [r].

Definition _map_worker (mapper : Mapper K V K' V') :=
  worker_step (map_call mapper) shuffle_put.

Definition _reduce_worker (reducer : Reducer K' V' R) :=
  worker_step (reduce_call reducer) results_append.

Definition _shuffle (self : MapReduceFramework) : MapReduceFramework :=
  {| num_mappers := num_mappers self; num_reducers := num_reducers self;
     map_queue := map_queue self; shuffle_dict := shuffle_dict self;
     reduce_queue :=
       foldl put (reduce_queue self) (dict_items (shuffle_dict self));
     results := results self |}.

(** Start [num_mappers] threads on [_map_worker] and join them all. *)
Definition map_phase (fuel : nat) (sched : nat → nat)
    (mapper : Mapper K V K' V') (self : MapReduceFramework)
  : option MapReduceFramework :=
  p ← exec_pool (map_call mapper) shuffle_put fuel sched 0%nat
        (Pool (map_queue self) (shuffle_dict self)
              (spawn (num_mappers self)));
  Some {| num_mappers := num_mappers self;
          num_reducers := num_reducers self;
          map_queue := queue p; shuffle_dict := acc p;
          reduce_queue := reduce_queue self; results := results self |}.

(** Start [num_reducers] threads on [_reduce_worker] and join them all. *)
Definition reduce_phase (fuel : nat) (sched : nat → nat)
    (reducer : Reducer K' V' R) (self : MapReduceFramework)
  : option MapReduceFramework :=
  p ← exec_pool (reduce_call reducer) results_append fuel sched 0%nat
        (Pool (reduce_queue self) (results self)
              (spawn (num_reducers self)));
  Some {| num_mappers := num_mappers self;
          num_reducers := num_reducers self;
          map_queue := map_queue self; shuffle_dict := shuffle_dict self;
          reduce_queue := queue p; results := acc p |}.

(** The state reset and the loading of the map queue at the start of
    [run]. *)
Definition load (self : MapReduceFramework) (input_data : list (K * V))
  : MapReduceFramework :=
  {| num_mappers := num_mappers self; num_reducers := num_reducers self;
     map_queue := foldl put [] input_data; shuffle_dict := [];
     reduce_queue := []; results := [] |}.

(** [run]: reset and load, mapper threads, join, shuffle, reducer
    threads, join, [return self.results].  The value is the engine after
    the call and the list returned; [None] when a pool has not terminated
    within [fuel] worker actions.  [sm] and [sr] schedule the mapper and
    the reducer threads. *)
Definition run (fuel : nat) (sm sr : nat → nat)
    (self : MapReduceFramework) (input_data : list (K * V))
    (mapper : Mapper K V K' V') (reducer : Reducer K' V' R)
  : option (MapReduceFramework * list R) :=
  self1 ← map_phase fuel sm mapper (load self input_data);
  self2 ← reduce_phase fuel sr reducer (_shuffle self1);
  Some (self2, results self2).

(** *** Vocabulary for the properties of [run] *)

(** Everything the mapper yields on the input, task by task. *)
Definition mapped (mapper : Mapper K V K' V') (input_data : list (K * V))
  : list (K' * V') :=
  input_data ≫= λ task, yields (map_call mapper task).

(** Everything the reducer yields on the groups of a table. *)
Definition reduced (reducer : Reducer K' V' R) (d : dict K' V') : list R :=
  d ≫= λ task, yields (reduce_call reducer task).

Definition never_empty {T I : Type} (call : T → generator I) (q : list T) :=
  Forall (λ t, ending_of (call t) ≠ RaisesEmpty) q.

Definition all_return {T I : Type} (call : T → generator I) (q : list T) :=
  Forall (λ t, ending_of (call t) = Returns) q.

(** A reducer that only depends on the collection of values, not on their
    order (sum, count, min, max). *)
Definition order_insensitive (reducer : Reducer K' V' R) : Prop :=
  ∀ k vs vs', vs ≡ₚ vs' → reducer k vs = reducer k vs'.

(** One reduction per distinct key over all the values of that key. *)
Definition reduce_groups (reducer : Reducer K' V' R) (l : list (K' * V'))
  : list R :=
  remove_dups l.*1 ≫= λ k, yields (reducer k (vals k l)).

End Framework.

Arguments MapReduceFramework : clear implicits.

(** ** The counting job ([mapreduce_jobs.py])

    A passenger record is a [dict] from field names to values. *)

Section Jobs.
Context {K val : Type}.

(** Python's [sum]: a left fold of [+] from [0]. *)
Definition sum (values : list Z) : Z := foldl Z.add 0 values.

(** [record['passenger_id']] raises [KeyError] when the field is
    missing. *)
Definition PassengerFlightCountMapper : Mapper K (gmap string val) val Z :=
  λ _ record,
    match record !! "passenger_id" with
    | Some passenger_id => Generator [(passenger_id, 1)] Returns
    | None => Generator [] RaisesError
    end.

Definition PassengerFlightCountReducer : Reducer val Z (val * Z) :=
  λ key values,
    let total_flights := sum values in
    Generator [(key, total_flights)] Returns.

End Jobs.

(** ** The airport parser ([data_parsers.py])

    Strings are sequences of ASCII characters; on them [\d] is [[0-9]]. *)

Definition newline : ascii := ascii_of_nat 10.

(** *** Regular expressions

    The fragment of [re] that the patterns of the parser use: a literal
    character, a character class repeated between [lo] and [hi] times
    ([hi = None] for no upper bound), sequence and option. *)
Inductive regex :=
| Lit (c : ascii)
| Rep (cls : ascii → bool) (lo : nat) (hi : option nat)
| Seq (r1 r2 : regex)
| Opt (r : regex).

(** What may remain of [s] after a run of characters of the class. *)
Fixpoint rep_prefix (cls : ascii → bool) (lo : nat) (hi : option nat)
    (s : list ascii) : list (list ascii) :=
  (match lo with O => [s] | S _ => [] end)
  ++ match s with
     | [] => []
     | c :: s' =>
         match hi with
         | Some O => []
         | _ =>
             if cls c then rep_prefix cls (pred lo) (pred <$> hi) s'
             else []
         end
     end.

(** What may remain of [s] after a match of [r] at its start. *)
Fixpoint match_prefix (r : regex) (s : list ascii) : list (list ascii) :=
  match r with
  | Lit c =>
      match s with
      | c' :: s' => if Ascii.eqb c c' then [s'] else []
      | [] => []
      end
  | Rep cls lo hi => rep_prefix cls lo hi s
  | Seq r1 r2 => match_prefix r1 s ≫= match_prefix r2
  | Opt r1 => match_prefix r1 s ++ [s]
  end.

(** [$] matches at the end of the string and just before a newline that
    ends it. *)
Definition at_end (rest : list ascii) : bool :=
  match rest with
  | [] => true
  | [c] => Ascii.eqb c newline
  | _ => false
  end.

(** [re.compile('^r$').match(s)], as a truth value. *)
Definition re_match (r : regex) (s : string) : bool :=
  existsb at_end (match_prefix r (String.list_ascii_of_string s)).

Definition in_range (lo hi : nat) (c : ascii) : bool :=
  (lo <=? nat_of_ascii c)%nat && (nat_of_ascii c <=? hi)%nat.

(** [[A-Z]], [\d] and [.] *)
Definition upper (c : ascii) : bool := in_range 65 90 c.
Definition digit (c : ascii) : bool := in_range 48 57 c.
Definition dot (c : ascii) : bool := negb (Ascii.eqb c newline).

Definition AIRPORT_CODE_PATTERN : regex := Rep upper 3 (Some 3%nat).
Definition AIRPORT_NAME_PATTERN : regex := Rep dot 3 (Some 20%nat).
Definition COORDINATE_PATTERN : regex :=
  Seq (Opt (Lit "-"))
      (Seq (Rep digit 1 None)
           (Opt (Seq (Lit ".") (Rep digit 1 (Some 13%nat))))).

(** *** [float]

    [float(s)] on a plain decimal numeral: surrounding white space, an
    optional sign, digits, and an optional point followed by digits.  Its
    value is the rational the numeral denotes; [None] stands for
    [ValueError].  The parser calls [float] only on strings that matched
    [COORDINATE_PATTERN], which have this form; the double that Python
    computes is the one nearest to this rational, and it compares with
    the bounds [-180], [-90], [90] and [180] as the rational does, since a
    numeral with at most 13 decimals that differs from such a bound differs
    from it by more than the spacing of doubles there. *)

Definition is_space (c : ascii) : bool :=
  in_range 9 13 c || in_range 28 32 c.

Fixpoint lstrip (s : list ascii) : list ascii :=
  match s with
  | c :: s' => if is_space c then lstrip s' else s
  | [] => []
  end.

Fixpoint rstrip (s : list ascii) : list ascii :=
  match s with
  | c :: s' =>
      match rstrip s' with
      | [] => if is_space c then [] else [c]
      | r => c :: r
      end
  | [] => []
  end.

Fixpoint span (p : ascii → bool) (s : list ascii)
  : list ascii * list ascii :=
  match s with
  | c :: s' =>
      if p c then let '(a, b) := span p s' in (c :: a, b) else ([], s)
  | [] => ([], [])
  end.

Definition digit_value (c : ascii) : Z := Z.of_nat (nat_of_ascii c) - 48.

Definition numeral (ds : list ascii) : Z :=
  foldl (λ n c, 10 * n + digit_value c) 0 ds.

Definition float (s : string) : option Q :=
  let t := rstrip (lstrip (String.list_ascii_of_string s)) in
  let '(negative, u) :=
    match t with
    | c :: u =>
        if Ascii.eqb c "-" then (true, u)
        else if Ascii.eqb c "+" then (false, u)
        else (false, t)
    | [] => (false, t)
    end in
  let signed (q : Q) : Q := if negative then Qopp q else q in
  let '(int_part, rest) := span digit u in
  match rest with
  | [] =>
      match int_part with
      | [] => None
      | _ => Some (signed (inject_Z (numeral int_part)))
      end
  | "."%char :: frac_part =>
      if forallb digit frac_part
         && negb (bool_decide (int_part = []) && bool_decide (frac_part = []))
      then Some (signed (Qplus (inject_Z (numeral int_part))
                           (Qmake (numeral frac_part)
                              (Pos.pow 10 (Pos.of_nat (length frac_part))))))
      else None
  | _ => None
  end.

Definition Qlt_bool (x y : Q) : bool := negb (Qle_bool y x).

(** *** [AirportDataParser] *)

Record airport := {
  name : string;
  code : string;
  latitude : Q;
  longitude : Q
}.

Definition _validate_airport_record (line_num : nat)
    (name code latitude longitude : string) : bool :=
  if negb (re_match AIRPORT_NAME_PATTERN name) then false
  else if negb (re_match AIRPORT_CODE_PATTERN code) then false
  else if negb (re_match COORDINATE_PATTERN latitude) then false
  else if negb (re_match COORDINATE_PATTERN longitude) then false
  else
    match float latitude with
    | None => false
    | Some lat_float =>
        if Qlt_bool lat_float (inject_Z (-90))
           || Qlt_bool (inject_Z 90) lat_float
        then false
        else
          match float longitude with
          | None => false
          | Some lon_float =>
              if Qlt_bool lat_float (inject_Z (-180))
                 || Qlt_bool (inject_Z 180) lat_float
              then false
              else true
          end
    end.

(** The body of the loop of [parse] on the [i]-th row that [csv.reader]
    yields. *)
Definition parse_row (airports : gmap string airport) (i : nat)
    (row : list string) : gmap string airport :=
  match row with
  | [name; code; latitude; longitude] =>
      if negb (_validate_airport_record (i + 1) name code latitude longitude)
      then airports
      else
        match float latitude, float longitude with
        | Some lat_float, Some lon_float =>
            <[code := {| name := name; code := code;
                         latitude := lat_float;
                         longitude := lon_float |}]> airports
        | _, _ => airports
        end
  | _ => airports
  end.

(** [parse], on the rows of the file. *)
Definition parse (rows : list (list string)) : gmap string airport :=
  (foldl (λ st row, (S st.1, parse_row st.2 st.1 row)) (0%nat, ∅) rows).2.

(** ** Concrete inputs *)

Definition yields_one (p : string) : generator (string * Z) :=
  Generator [(p, 1)] Returns.

(** A round-robin scheduler and one that always picks the first running
    thread. *)
Definition round_robin (n : nat) : nat := n.
Definition first_running (n : nat) : nat := 0%nat.

Definition passenger (p : string) : gmap string string :=
  {[ "passenger_id" := p; "flight_id" := "QHU1140O" ]}.

Definition one_record : list (Z * gmap string string) :=
  [(0, passenger "P1")].

Definition another_record : list (Z * gmap string string) :=
  [(0, passenger "P2")].

Definition five_records : list (Z * gmap string string) :=
  [(0, passenger "P1"); (1, passenger "P2"); (2, passenger "P1");
   (3, passenger "P1"); (4, passenger "P2")].

Definition other_records : list (Z * gmap string string) :=
  [(0, passenger "P3"); (1, passenger "P2")].

(** A generator that yields one pair and then raises. *)
Definition yield_then_raise : Mapper Z string string Z :=
  λ _ value, Generator [(value, 1)] RaisesError.

(** A reducer written as a generator that yields the sum and then
    raises. *)
Definition sum_then_raise : Reducer string Z (string * Z) :=
  λ key values, Generator [(key, sum values)] RaisesError.

(** A mapper whose invocation on the task of index [0] raises
    [queue.Empty]. *)
Definition empty_on_first : Mapper Z string string Z :=
  λ key value,
    if decide (key = 0) then Generator [] RaisesEmpty
    else Generator [(value, 1)] Returns.

Definition two_tasks : list (Z * string) := [(0, "a"); (1, "b")].

(** A reducer that files every total under the key ["P1"]. *)
Definition totals_under_P1 : Reducer string Z (string * Z) :=
  λ _ values, Generator [("P1", sum values)] Returns.

Definition no_mappers
  : MapReduceFramework Z (gmap string string) string Z (string * Z) :=
  init 0 2.

Definition no_reducers
  : MapReduceFramework Z (gmap string string) string Z (string * Z) :=
  init 4 0.

(** ** Sequential reading of a run *)

Section Sequential.
Context {K' V' : Type} `{EqDecision K'}.

(** The table that a single thread builds from intermediate pairs taken in
    the order in which they are yielded. *)
Definition group (l : list (K' * V')) : dict K' V' :=
  foldl (λ d kv, shuffle_put kv d) [] l.

(** The distinct elements of a list, in the order of their first
    occurrence. *)
Definition first_occurrences (ks : list K') : list K' :=
  foldl (λ seen k, if decide (k ∈ seen) then seen else seen ++ [k]) [] ks.

End Sequential.

(** ** Preparing the input ([main.py]) *)

Section Main.
Context {val : Type} `{EqDecision val}.

(** [[(i, record) for i, record in enumerate(passenger_records)]] *)
Definition prepare_input_data (passenger_records : list (gmap string val))
  : list (Z * gmap string val) :=
  imap (λ i record, (Z.of_nat i, record)) passenger_records.

(** The number of records that carry the passenger identifier [p]. *)
Definition flights_of (p : val) (records : list (gmap string val)) : nat :=
  length (filter (λ record, record !! "passenger_id" = Some p) records).

End Main.

(** ** Printing the ranking ([print_results] of [main.py])

    What [print_results] prints, line by line; a line is kept as its
    content, not as the formatted text. *)

Section Report.
Context {P : Type}.

Inductive line :=
| Banner (job_name : string)
| TopHeading (top_n : Z)
| ColumnHeading
| Rule
| Row (rank : Z) (passenger_id : P) (flight_count : Z)
| TotalPassengers (total_passengers : Z)
| InvalidJob (job_name : string).

(** [sorted(results, key=lambda x: x[1], reverse=True)]: the stable sort by
    decreasing count; results with the same count keep their order. *)
Fixpoint insert_by_count (x : P * Z) (l : list (P * Z)) : list (P * Z) :=
  match l with
  | [] => [x]
  | y :: l' =>
      if decide (y.2 ≤ x.2) then x :: y :: l' else y :: insert_by_count x l'
  end.

Definition sorted_by_count (results : list (P * Z)) : list (P * Z) :=
  foldr insert_by_count [] results.

(** The slice [l[:n]]; a negative [n] counts from the end. *)
Definition slice_to {X : Type} (n : Z) (l : list X) : list X :=
  if decide (0 ≤ n) then take (Z.to_nat n) l
  else take (length l - Z.to_nat (- n)) l.

Definition print_results (job_name : string) (results : list (P * Z))
    (top_n : Z) : list line :=
  Banner job_name ::
  if decide (job_name = "Most Frequent Flyers") then
    let sorted_results := sorted_by_count results in
    [TopHeading top_n; ColumnHeading; Rule]
    ++ imap (λ i x, Row (Z.of_nat i + 1) x.1 x.2)
         (slice_to top_n sorted_results)
    ++ (let total_passengers := Z.of_nat (length results) in
        if decide (top_n < total_passengers)
        then [TotalPassengers total_passengers] else [])
  else [InvalidJob job_name].

(** The rows among the lines. *)
Definition rows_of (lines : list line) : list (Z * P * Z) :=
  omap (λ l, match l with
             | Row rank passenger_id flight_count =>
                 Some (rank, passenger_id, flight_count)
             | _ => None
             end) lines.

End Report.

(** ** The passenger parser ([PassengerDataParser] of [data_parsers.py]) *)

(** [int(s)] in base ten: surrounding white space, an optional sign, and
    digits, where single underscores may separate digits.  [None] stands
    for [ValueError].  The bound that recent interpreters put on the
    number of digits of the string (4300 unless configured) is left
    out. *)
Fixpoint int_digits (after_digit : bool) (u : list ascii)
  : option (list ascii) :=
  match u with
  | [] => if after_digit then Some [] else None
  | c :: u' =>
      if digit c then (c ::.) <$> int_digits true u'
      else if Ascii.eqb c "_" && after_digit then int_digits false u'
      else None
  end.

Definition int (s : string) : option Z :=
  let t := rstrip (lstrip (String.list_ascii_of_string s)) in
  let '(negative, u) :=
    match t with
    | c :: u =>
        if Ascii.eqb c "-" then (true, u)
        else if Ascii.eqb c "+" then (false, u)
        else (false, t)
    | [] => (false, t)
    end in
  ds ← int_digits false u;
  Some (if negative then - numeral ds else numeral ds).

Module PassengerDataParser.

Definition PASSENGER_ID_PATTERN : regex :=
  Seq (Rep upper 3 (Some 3%nat))
      (Seq (Rep digit 4 (Some 4%nat))
           (Seq (Rep upper 2 (Some 2%nat)) (Rep digit 1 (Some 1%nat)))).
Definition FLIGHT_ID_PATTERN : regex :=
  Seq (Rep upper 3 (Some 3%nat))
      (Seq (Rep digit 4 (Some 4%nat)) (Rep upper 1 (Some 1%nat))).
Definition AIRPORT_CODE_PATTERN : regex := Rep upper 3 (Some 3%nat).

Definition _validate_passenger_record (line_num : nat)
    (passenger_id flight_id from_airport dest_airport
       departure_time flight_time : string) : bool :=
  if negb (re_match PASSENGER_ID_PATTERN passenger_id) then false
  else if negb (re_match FLIGHT_ID_PATTERN flight_id) then false
  else if negb (re_match AIRPORT_CODE_PATTERN from_airport) then false
  else if negb (re_match AIRPORT_CODE_PATTERN dest_airport) then false
  else
    match int departure_time with
    | None => false
    | Some departure_time_int =>
        if decide (departure_time_int < 0) then false
        else
          match int flight_time with
          | None => false
          | Some flight_time_int =>
              if decide (flight_time_int < 1 ∨ flight_time_int > 9999)
              then false
              else true
          end
    end.

(** The values of a passenger record: the six fields are kept as the
    strings of the row; [departure_datetime] is a [datetime]. *)
Inductive field (datetime : Type) :=
| Str (s : string)
| Datetime (d : datetime).
Arguments Str {datetime} _.
Arguments Datetime {datetime} _.

#[global] Instance field_eq_dec {datetime : Type} `{EqDecision datetime} :
  EqDecision (field datetime).
Proof. solve_decision. Defined.

Section Parse.
(** [datetime.fromtimestamp], which raises on a timestamp outside the
    range of the platform: [None]. *)
Context {datetime : Type}.
Variable fromtimestamp : Z → option datetime.

Definition record_of (passenger_id flight_id from_airport dest_airport
    departure_time flight_time : string) (departure_datetime : datetime)
  : gmap string (field datetime) :=
  {[ "passenger_id" := Str passenger_id;
     "flight_id" := Str flight_id;
     "from_airport" := Str from_airport;
     "dest_airport" := Str dest_airport;
     "departure_time" := Str departure_time;
     "flight_time" := Str flight_time;
     "departure_datetime" := Datetime departure_datetime ]}.

(** The loop of [parse] from the [i]-th row on.  An exception of
    [datetime.fromtimestamp] is not caught inside the loop: it ends the
    loop, and the handler around it logs; [parse] then returns the records
    read so far. *)
Fixpoint parse_rows (i : nat) (rows : list (list string))
    (records : list (gmap string (field datetime)))
  : list (gmap string (field datetime)) :=
  match rows with
  | [] => records
  | row :: rest =>
      match row with
      | [passenger_id; flight_id; from_airport; dest_airport;
         departure_time; flight_time] =>
          if negb (_validate_passenger_record (i + 1) passenger_id flight_id
                     from_airport dest_airport departure_time flight_time)
          then parse_rows (S i) rest records
          else
            match int departure_time, int flight_time with
            | Some departure_time_int, Some flight_time_int =>
                match fromtimestamp departure_time_int with
                | Some departure_datetime =>
                    parse_rows (S i) rest
                      (records
                       ++ [record_of passenger_id flight_id from_airport
                             dest_airport departure_time flight_time
                             departure_datetime])
                | None => records
                end
            | _, _ => parse_rows (S i) rest records
            end
      | _ => parse_rows (S i) rest records
      end
  end.

(** [parse], on the rows of the file. *)
Definition parse (rows : list (list string))
  : list (gmap string (field datetime)) :=
  parse_rows 0 rows [].

End Parse.

End PassengerDataParser.

(** ** Concrete files *)

Definition airport_rows : list (list string) :=
  [["HEATHROW"; "LHR"; "51.4775"; "-0.461389"];
   ["LONDON HEATHROW"; "LHR"; "51.4775"; "500.0"];
   ["GATWICK"; "LGW"; "51.148056"; "-0.190278"]].

Definition north_of_the_pole : list string :=
  ["NOWHERE"; "NWH"; "91.0"; "0.0"].

Definition passenger_rows : list (list string) :=
  [["UES9151GS5"; "SQU6245R"; "DEN"; "FRA"; "1420564460"; "1049"];
   ["UES9151GS5"; "XXQ4064B"; "JFK"; "FRA"; "1420563917"; "802"];
   ["not a record"];
   ["EZC9678QI6"; "SOH3431A"; "ORD"; "MIA"; "1420563408"; "250"]].

(** A [fromtimestamp] that counts seconds and refuses the years after
    9999, and a row whose departure time it refuses. *)
Definition utc_seconds (t : Z) : option Z :=
  if decide (t < 253402300800) then Some t else None.



Definition three_results : list (string * Z) :=
  [("P1", 3); ("P2", 2); ("P3", 5)].

(** * Facts about worker pools *)

Lemma foldl_put {X : Type} (l q : list X) : foldl put q l = q ++ l.
Proof.
  revert q; induction l as [|x l IH]; intros q; simpl.
  - by rewrite app_nil_r.
  - rewrite IH. unfold put. by rewrite <- app_assoc.
Qed.

Lemma bind_nil_Forall {X Y : Type} (f : X → list Y) (xs : list X) :
  Forall (λ x, f x = []) xs → xs ≫= f = [].
Proof.
  induction 1 as [|x xs Hx _ IH]; [done|]. by rewrite bind_cons, Hx, IH.
Qed.

Lemma insert_split {X : Type} (l : list X) (i : nat) (x y : X) :
  l !! i = Some x →
  ∃ l1 l2, l = l1 ++ x :: l2 ∧ <[i := y]> l = l1 ++ y :: l2.
Proof.
  intros Hi. exists (take i l), (drop (S i) l). split.
  - by rewrite take_drop_middle.
  - apply insert_take_drop. by eapply lookup_lt_Some.
Qed.

Section WorkerFacts.
Context {T I A : Type}.
Variable call : T → generator I.
Variable push : I → A → A.

#[local] Abbreviation worker := (worker I).
#[local] Abbreviation pool := (pool T I A).
#[local] Abbreviation pstep := (pool_step call push).
#[local] Abbreviation exec := (exec_pool call push).

Lemma active_from_elem (ws : list worker) (n i : nat) :
  i ∈ active_from n ws ↔
  ∃ w, ws !! (i - n)%nat = Some w ∧ (n ≤ i)%nat ∧ is_active w = true.
Proof.
  revert n. induction ws as [|w ws IH]; intros n; simpl.
  - split; [by intros ?%elem_of_nil | by intros (? & ? & _)].
  - destruct (is_active w) eqn:Hw.
    + rewrite elem_of_cons, IH. split.
      * intros [-> | (w' & Hl & Hle & Ha)].
        -- exists w. by rewrite Nat.sub_diag.
        -- exists w'. split_and!; [|lia|done].
           by replace (i - n)%nat with (S (i - S n)) by lia.
      * intros (w' & Hl & Hle & Ha).
        destruct (decide (i = n)) as [->|Hne]; [by left|right].
        exists w'. split_and!; [|lia|done].
        by replace (i - n)%nat with (S (i - S n)) in Hl by lia.
    + rewrite IH. split.
      * intros (w' & Hl & Hle & Ha). exists w'. split_and!; [|lia|done].
        by replace (i - n)%nat with (S (i - S n)) by lia.
      * intros (w' & Hl & Hle & Ha).
        destruct (decide (i = n)) as [->|Hne].
        { rewrite Nat.sub_diag in Hl. simpl in Hl. congruence. }
        exists w'. split_and!; [|lia|done].
        by replace (i - n)%nat with (S (i - S n)) in Hl by lia.
Qed.

Lemma active_elem (ws : list worker) (i : nat) :
  i ∈ active ws ↔ ∃ w, ws !! i = Some w ∧ is_active w = true.
Proof.
  unfold active. rewrite active_from_elem, Nat.sub_0_r.
  split; intros (w & ?); exists w; intuition lia.
Qed.

Lemma active_nil (ws : list worker) :
  active ws = [] ↔ Forall (λ w, w = Finished) ws.
Proof.
  split.
  - intros Hact. apply Forall_lookup. intros i w Hi.
    destruct w; try done;
      (assert (i ∈ active ws) as Hin
         by (apply active_elem; eexists; split; [exact Hi|done]);
       rewrite Hact in Hin; by apply elem_of_nil in Hin).
  - intros Hall. destruct (active ws) as [|i act] eqn:Hact; [done|].
    assert (i ∈ active ws) as Hin by (rewrite Hact; left).
    apply active_elem in Hin as (w & Hi & Ha).
    rewrite Forall_lookup in Hall. by rewrite (Hall _ _ Hi) in Ha.
Qed.

Lemma scheduled_active (act : list nat) (i0 k : nat) :
  act ≠ [] → nth (k mod length act)%nat act i0 ∈ act.
Proof.
  intros Hne. apply list_elem_of_In, nth_In.
  apply Nat.mod_upper_bound. by destruct act.
Qed.

(** Every property kept by each worker action holds when the pool has
    been joined. *)
Lemma exec_pool_invariant (P : pool → Prop) :
  (∀ i p, i ∈ active (workers p) → P p → P (pstep i p)) →
  ∀ fuel sched n p p',
    P p → exec fuel sched n p = Some p' →
    P p' ∧ Forall (λ w, w = Finished) (workers p').
Proof.
  intros Hstep fuel sched.
  induction fuel as [|fuel IH]; intros n p p' HP Hexec; simpl in Hexec.
  - destruct (active (workers p)) eqn:Hact; [|done].
    injection Hexec as <-. split; [done|by apply active_nil].
  - destruct (active (workers p)) as [|i0 act] eqn:Hact.
    + injection Hexec as <-. split; [done|by apply active_nil].
    + eapply IH; [|exact Hexec]. apply Hstep; [|done].
      rewrite Hact. by apply scheduled_active.
Qed.

Lemma pool_step_acc (P : A → Prop) (i : nat) (p : pool) :
  (∀ x a, P a → P (push x a)) → P (acc p) → P (acc (pstep i p)).
Proof.
  intros Hpush Hp. unfold pool_step.
  destruct (workers p !! i) as [w|]; [|done].
  destruct w as [| |[|x xs] e|]; simpl.
  - by destruct (queue p).
  - by destruct (queue p).
  - by destruct e.
  - by apply Hpush.
  - done.
Qed.

Lemma exec_pool_no_workers fuel sched n (p : pool) :
  workers p = [] → exec fuel sched n p = Some p.
Proof. intros Hw. destruct fuel; simpl; by rewrite Hw. Qed.

Lemma exec_pool_mono fuel fuel' sched n (p p' : pool) :
  (fuel ≤ fuel')%nat →
  exec fuel sched n p = Some p' → exec fuel' sched n p = Some p'.
Proof.
  revert fuel' n p. induction fuel as [|fuel IH]; intros fuel' n p Hle Hexec.
  - simpl in Hexec. destruct (active (workers p)) eqn:Hact; [|done].
    destruct fuel'; simpl; by rewrite Hact.
  - destruct fuel' as [|fuel']; [lia|]. simpl in *.
    destruct (active (workers p)) eqn:Hact; [done|].
    apply IH; [lia|done].
Qed.

(** A pool of one worker has one schedule. *)
Lemma exec_pool_single fuel sched sched' n n' (p : pool) :
  length (workers p) = 1%nat →
  exec fuel sched n p = exec fuel sched' n' p.
Proof.
  revert n n' p. induction fuel as [|fuel IH]; intros n n' p Hlen; [done|].
  destruct p as [q a [|w [|? ?]]]; try done. simpl.
  unfold active. simpl. destruct (is_active w); [|done].
  rewrite !Nat.mod_1_r. simpl. apply IH. unfold pool_step. simpl.
  by destruct (worker_step call push w q a) as [[? ?] ?].
Qed.

(** *** Termination: every action consumes part of a finite budget. *)

Lemma pool_step_budget (i : nat) (p : pool) :
  i ∈ active (workers p) → (budget call (pstep i p) < budget call p)%nat.
Proof.
  intros (w & Hi & Ha)%active_elem. unfold pool_step, budget. rewrite Hi.
  destruct (worker_step call push w (queue p) (acc p)) as [[w' q'] a'] eqn:Hs.
  simpl.
  destruct (insert_split _ _ _ w' Hi) as (l1 & l2 & Hl & ->).
  rewrite Hl. rewrite !sum_list_with_app. simpl.
  destruct w as [| |[|x xs] e|]; simpl in Hs; try done.
  - destruct (queue p); injection Hs as <- <- <-; simpl; lia.
  - destruct (queue p) as [|t q]; injection Hs as <- <- <-; simpl;
      unfold task_budget; lia.
  - destruct e; injection Hs as <- <- <-; simpl; lia.
  - injection Hs as <- <- <-; simpl; lia.
Qed.

Lemma exec_pool_terminates fuel sched n (p : pool) :
  (budget call p ≤ fuel)%nat → is_Some (exec fuel sched n p).
Proof.
  revert n p. induction fuel as [|fuel IH]; intros n p Hle; simpl.
  - destruct (active (workers p)) as [|i0 act] eqn:Hact; [done|].
    assert (i0 ∈ active (workers p)) as Hin by (rewrite Hact; left).
    apply pool_step_budget in Hin. lia.
  - destruct (active (workers p)) as [|i0 act] eqn:Hact; [done|].
    apply IH.
    assert (nth (sched n mod length (i0 :: act))%nat (i0 :: act) i0
              ∈ active (workers p)) as Hin
      by (rewrite Hact; by apply scheduled_active).
    apply pool_step_budget in Hin. lia.
Qed.

End WorkerFacts.


(** *** What a pool holds: accumulated, in the hands of a worker, or still
    queued. *)

Section WorkerContent.
Context {T I A : Type}.
Variable call : T → generator I.
Variable push : I → A → A.
Variable content : A → list I.
Hypothesis content_push : ∀ x a, content (push x a) ≡ₚ x :: content a.

#[local] Abbreviation pool := (pool T I A).
#[local] Abbreviation pstep := (pool_step call push).
#[local] Abbreviation exec := (exec_pool call push).

Lemma pool_step_in_flight (i : nat) (p : pool) :
  in_flight call content (pstep i p) ≡ₚ in_flight call content p.
Proof.
  unfold pool_step, in_flight.
  destruct (workers p !! i) as [w|] eqn:Hi; [|done].
  destruct (worker_step call push w (queue p) (acc p)) as [[w' q'] a'] eqn:Hs.
  simpl.
  destruct (insert_split _ _ _ w' Hi) as (l1 & l2 & Hl & ->).
  rewrite Hl, !bind_app, !bind_cons.
  destruct w as [| |[|x xs] e|]; simpl in Hs.
  - destruct (queue p); by injection Hs as <- <- <-.
  - destruct (queue p) as [|t q]; injection Hs as <- <- <-; [done|].
    unfold queued. rewrite bind_cons. simpl. solve_Permutation.
  - destruct e; by injection Hs as <- <- <-.
  - injection Hs as <- <- <-. simpl. rewrite content_push. solve_Permutation.
  - by injection Hs as <- <- <-.
Qed.

Lemma empties_cons (t : T) (q : list T) :
  empties call (t :: q)
  = ((if decide (ending_of (call t) = RaisesEmpty) then 1 else 0)
     + empties call q)%nat.
Proof.
  unfold empties. destruct (decide (ending_of (call t) = RaisesEmpty)).
  - by rewrite filter_cons_True.
  - by rewrite filter_cons_False.
Qed.

Lemma pool_step_drains (E i : nat) (p : pool) :
  drains call E p → drains call E (pstep i p).
Proof.
  unfold pool_step, drains. intros Hd.
  destruct (workers p !! i) as [w|] eqn:Hi; [|done].
  destruct (worker_step call push w (queue p) (acc p)) as [[w' q'] a'] eqn:Hs.
  simpl.
  destruct (insert_split _ _ _ w' Hi) as (l1 & l2 & Hl & ->).
  rewrite Hl in Hd. rewrite !sum_list_with_app in *. simpl in *.
  destruct w as [| |[|x xs] e|]; simpl in Hs.
  - destruct (queue p) eqn:Hq; injection Hs as <- <- <-; [done|].
    simpl. intros _. specialize (Hd ltac:(done)). lia.
  - destruct (queue p) as [|t q] eqn:Hq; injection Hs as <- <- <-; [done|].
    intros _. specialize (Hd ltac:(done)). rewrite empties_cons in Hd.
    simpl. destruct (ending_of (call t)); simpl in *;
      repeat case_decide; try done; lia.
  - destruct e; injection Hs as <- <- <-; simpl; intros Hq;
      specialize (Hd Hq); simpl in Hd; lia.
  - injection Hs as <- <- <-. simpl. intros Hq. specialize (Hd Hq).
    simpl in Hd. lia.
  - injection Hs as <- <- <-. simpl. intros Hq. specialize (Hd Hq).
    simpl in Hd. lia.
Qed.

Lemma drains_finished (E : nat) (p : pool) :
  drains call E p → (E < length (workers p))%nat →
  Forall (λ w, w = Finished) (workers p) →
  queue p = [].
Proof.
  intros Hd HE Hfin. destruct (queue p) as [|t q] eqn:Hq; [done|].
  unfold drains in Hd. rewrite Hq in Hd. specialize (Hd ltac:(done)).
  assert (sum_list_with stopped (workers p) = length (workers p)) as Hsum.
  { clear -Hfin. induction Hfin as [|w ws -> _ IH]; [done|]. simpl. lia. }
  lia.
Qed.

Lemma spawn_drains (q : list T) (a : A) (n : Z) :
  drains call (empties call q) (Pool q a (spawn n)).
Proof.
  unfold drains, spawn. simpl. intros _.
  assert (∀ m, sum_list_with stopped (replicate m (AtLoopHead (I := I))) = 0%nat)
    as ->; [|done].
  induction m as [|m IH]; [done|]. rewrite replicate_S. simpl. lia.
Qed.

Lemma never_empty_empties (q : list T) :
  Forall (λ t, ending_of (call t) ≠ RaisesEmpty) q → empties call q = 0%nat.
Proof.
  induction 1 as [|t q Ht _ IH]; [done|].
  rewrite empties_cons, IH. by rewrite decide_False.
Qed.

Lemma spawn_in_flight (q : list T) (a : A) (n : Z) :
  in_flight call content (Pool q a (spawn n)) = content a ++ queued call q.
Proof.
  unfold in_flight, spawn. simpl. f_equal.
  assert (∀ m, replicate m (AtLoopHead (I := I)) ≫= pending = []) as ->;
    [|done].
  induction m as [|m IH]; [done|]. by rewrite replicate_S, bind_cons, IH.
Qed.

Lemma finished_in_flight (p : pool) :
  Forall (λ w, w = Finished) (workers p) →
  in_flight call content p = content (acc p) ++ queued call (queue p).
Proof.
  intros Hfin. unfold in_flight. f_equal.
  assert (workers p ≫= pending = []) as ->; [|done].
  induction Hfin as [|w ws -> _ IH]; [done|]. by rewrite bind_cons, IH.
Qed.

(** The pool as a whole: nothing is lost and nothing is invented, whatever
    the schedule. *)
Lemma exec_pool_content fuel sched n (q : list T) (a : A) (k : Z) (p' : pool) :
  exec_pool call push fuel sched n (Pool q a (spawn k)) = Some p' →
  content (acc p') ++ queued call (queue p') ≡ₚ content a ++ queued call q.
Proof.
  intros Hexec.
  apply (exec_pool_invariant call push
           (λ p, in_flight call content p ≡ₚ content a ++ queued call q)) in Hexec.
  - destruct Hexec as [Hperm Hfin]. by rewrite <- finished_in_flight.
  - intros i p _ Hp. by rewrite pool_step_in_flight.
  - by rewrite spawn_in_flight.
Qed.

(** A pool with more workers than tasks that raise [queue.Empty] empties
    its queue. *)
Lemma exec_pool_drained fuel sched n (q : list T) (a : A) (k : Z) (p' : pool) :
  (empties call q < Z.to_nat k)%nat →
  exec fuel sched n (Pool q a (spawn k)) = Some p' →
  queue p' = [].
Proof.
  intros Hk Hexec.
  assert (length (workers p') = Z.to_nat k) as Hlen.
  { apply (exec_pool_invariant call push
             (λ p, length (workers p) = Z.to_nat k)) in Hexec as [? _];
      [done| |by apply length_replicate].
    intros i p _ Hp. unfold pool_step.
    destruct (workers p !! i); [|done].
    destruct (worker_step _ _ _ _ _) as [[? ?] ?]. simpl.
    by rewrite length_insert. }
  apply (exec_pool_invariant call push (drains call (empties call q)))
    in Hexec as [Hd Hfin].
  - apply (drains_finished (empties call q)); [done|lia|done].
  - intros i p _. apply pool_step_drains.
  - apply spawn_drains.
Qed.

End WorkerContent.


(** * Facts about the shuffle table *)

Section DictFacts.
Context {K' V' : Type} `{EqDecision K'}.
Implicit Types (d : dict K' V') (k : K') (v : V') (l : list (K' * V')).

Lemma shuffle_put_unfold k v d :
  shuffle_put (k, v) d =
  match d with
  | [] => [(k, [v])]
  | (k', vs) :: d' =>
      if decide (k' = k) then (k', vs ++ [v]) :: d'
      else (k', vs) :: shuffle_put (k, v) d'
  end.
Proof.
  unfold shuffle_put, dict_contains.
  destruct d as [|[k' vs] d']; cbn [fst snd fmap list_fmap].
  - case_bool_decide as Hin; [by apply elem_of_nil in Hin|].
    cbn. by rewrite decide_True.
  - destruct (decide (k' = k)) as [->|Hne].
    + case_bool_decide as Hin; [|exfalso; apply Hin; left].
      cbn. by rewrite decide_True.
    + case_bool_decide as H1; case_bool_decide as H2.
      * simpl. by rewrite decide_False.
      * apply elem_of_cons in H1 as [?|?]; [congruence|done].
      * exfalso. apply H1. by right.
      * simpl. rewrite decide_False by done. simpl. by rewrite decide_False.
Qed.

Lemma shuffle_put_keys k v d :
  (shuffle_put (k, v) d).*1 = if decide (k ∈ d.*1) then d.*1 else d.*1 ++ [k].
Proof.
  induction d as [|[k' vs] d IH]; rewrite shuffle_put_unfold.
  - case_decide as Hin; [by apply elem_of_nil in Hin|done].
  - cbn [fmap list_fmap fst]. destruct (decide (k' = k)) as [->|Hne].
    + clear IH. case_decide as Hin; [reflexivity|]. exfalso. apply Hin. left.
    + cbn [fmap list_fmap fst]. rewrite IH. clear IH.
      case_decide as H1; case_decide as H2; try reflexivity.
      * exfalso. apply H2. by right.
      * apply elem_of_cons in H2 as [?|?]; [congruence|done].
Qed.

Lemma shuffle_put_pairs (kv : K' * V') d :
  pairs_of (shuffle_put kv d) ≡ₚ kv :: pairs_of d.
Proof.
  destruct kv as [k v]. unfold pairs_of.
  induction d as [|[k' vs] d IH]; rewrite shuffle_put_unfold; simpl.
  - done.
  - destruct (decide (k' = k)) as [->|Hne].
    + rewrite !bind_cons. simpl. rewrite fmap_app. simpl.
      solve_Permutation.
    + rewrite !bind_cons, IH. simpl. solve_Permutation.
Qed.

Lemma shuffle_put_ok (kv : K' * V') d : dict_ok d → dict_ok (shuffle_put kv d).
Proof.
  destruct kv as [k v]. intros [Hnd Hne]. split.
  - rewrite shuffle_put_keys. destruct (decide (k ∈ d.*1)); [done|].
    apply NoDup_app. split_and!; [done| |apply NoDup_singleton].
    intros x Hx ->%list_elem_of_singleton. done.
  - clear Hnd. induction d as [|[k' vs] d IH]; rewrite shuffle_put_unfold.
    + repeat constructor. done.
    + inversion Hne; subst. destruct (decide (k' = k)).
      * constructor; [|done]. simpl. by destruct vs.
      * constructor; [done|]. by apply IH.
Qed.

Lemma dict_ok_nil : dict_ok ([] : dict K' V').
Proof. split; simpl; constructor. Qed.

#[global] Instance vals_Permutation k :
  Proper ((≡ₚ) ==> (≡ₚ)) (vals (V' := V') k).
Proof. intros l1 l2 Hl. unfold vals. by rewrite Hl. Qed.

Lemma vals_app k l1 l2 : vals k (l1 ++ l2) = vals k l1 ++ vals k l2.
Proof. unfold vals. by rewrite filter_app, fmap_app. Qed.

Lemma vals_group_same k (vs : list V') : vals k ((λ v, (k, v)) <$> vs) = vs.
Proof.
  unfold vals. induction vs as [|v vs IH]; [done|].
  rewrite fmap_cons, filter_cons_True by done. rewrite fmap_cons.
  by rewrite IH.
Qed.

Lemma vals_absent k l : k ∉ l.*1 → vals k l = [].
Proof.
  unfold vals. induction l as [|[k' v] l IH]; [done|].
  rewrite fmap_cons. intros Hk. rewrite filter_cons_False.
  - apply IH. intros ?. apply Hk. by right.
  - simpl. intros ->. apply Hk. left.
Qed.

Lemma pairs_of_keys d k : k ∈ (pairs_of d).*1 → k ∈ d.*1.
Proof.
  unfold pairs_of. intros ([k0 v] & -> & Hin)%list_elem_of_fmap.
  apply list_elem_of_bind in Hin as ([k1 vs] & Hin & He).
  apply list_elem_of_fmap in Hin as (v' & [= -> ->] & _).
  apply list_elem_of_fmap. by exists (k1, vs).
Qed.

Lemma pairs_of_keys_ok d k : dict_ok d → k ∈ d.*1 ↔ k ∈ (pairs_of d).*1.
Proof.
  intros [_ Hne]. split; [|apply pairs_of_keys].
  intros ([k0 vs] & -> & Hin)%list_elem_of_fmap.
  rewrite Forall_forall in Hne. specialize (Hne _ Hin). simpl in *.
  destruct vs as [|v vs]; [done|].
  apply list_elem_of_fmap. exists (k0, v). split; [done|].
  unfold pairs_of. apply list_elem_of_bind. exists (k0, v :: vs).
  split; [|done]. simpl. left.
Qed.

Lemma dict_vals d k (vs : list V') :
  NoDup d.*1 → (k, vs) ∈ d → vals k (pairs_of d) = vs.
Proof.
  unfold pairs_of. induction d as [|[k' vs'] d IH]; intros Hnd Hin.
  - by apply elem_of_nil in Hin.
  - simpl in Hnd. apply NoDup_cons in Hnd as [Hk' Hnd].
    rewrite bind_cons, vals_app. simpl.
    apply elem_of_cons in Hin as [[= -> ->] | Hin].
    + rewrite vals_group_same, vals_absent, app_nil_r; [done|].
      intros ?%pairs_of_keys. done.
    + rewrite IH by done. rewrite vals_absent; [done|].
      rewrite <- list_fmap_compose. simpl.
      intros (v & -> & _)%list_elem_of_fmap. simpl in *. apply Hk'.
      apply list_elem_of_fmap. by exists (k', vs).
Qed.

Lemma dict_get_elem d k (vs : list V') :
  NoDup d.*1 → dict_get k d = Some vs ↔ (k, vs) ∈ d.
Proof.
  induction d as [|[k' vs'] d IH]; simpl; intros Hnd.
  - split; [done|by intros ?%elem_of_nil].
  - apply NoDup_cons in Hnd as [Hk' Hnd]. destruct (decide (k' = k)) as [->|Hne].
    + split; [intros [= ->]; left|].
      intros [[= ->]|Hin]%elem_of_cons; [done|]. exfalso. apply Hk'.
      apply list_elem_of_fmap. by exists (k, vs).
    + rewrite IH by done. split; [by right|].
      intros [[= -> ->]|Hin]%elem_of_cons; done.
Qed.

End DictFacts.


(** * Facts about [run] *)

Section FrameworkFacts.
Context {K V K' V' R : Type} `{EqDecision K'}.
Implicit Types (self : MapReduceFramework K V K' V' R).
Implicit Types (mapper : Mapper K V K' V') (reducer : Reducer K' V' R).
Implicit Types (input_data : list (K * V)) (d : dict K' V').

Lemma all_return_never_empty {T I : Type} (call : T → generator I) q :
  all_return call q → never_empty call q.
Proof. intros Hq. eapply Forall_impl; [exact Hq|]. by intros t ->. Qed.

Lemma run_unfold fuel sm sr self input_data mapper reducer self' res :
  run fuel sm sr self input_data mapper reducer = Some (self', res) ↔
  ∃ self1,
    map_phase fuel sm mapper (load self input_data) = Some self1
    ∧ reduce_phase fuel sr reducer (_shuffle self1) = Some self'
    ∧ res = results self'.
Proof.
  unfold run. split.
  - destruct (map_phase _ _ _ _) as [self1|] eqn:Hm; [|done]. simpl.
    destruct (reduce_phase _ _ _ _) as [self2|] eqn:Hr; [|done]. simpl.
    intros [= <- <-]. by exists self1.
  - intros (self1 & -> & Hr & ->). simpl. by rewrite Hr.
Qed.

Lemma map_phase_spec fuel sm mapper self input_data self1 :
  map_phase fuel sm mapper (load self input_data) = Some self1 →
  num_mappers self1 = num_mappers self
  ∧ num_reducers self1 = num_reducers self
  ∧ reduce_queue self1 = [] ∧ results self1 = []
  ∧ dict_ok (shuffle_dict self1)
  ∧ pairs_of (shuffle_dict self1) ++ mapped mapper (map_queue self1)
      ≡ₚ mapped mapper input_data
  ∧ ((empties (map_call mapper) input_data
        < Z.to_nat (num_mappers self))%nat →
     map_queue self1 = []).
Proof.
  unfold map_phase, load. simpl. rewrite foldl_put. simpl.
  destruct (exec_pool _ _ _ _ _ _) as [p|] eqn:Hexec; [|done].
  simpl. intros [= <-]. simpl. split_and!; try done.
  - apply (exec_pool_invariant _ _ (λ p, dict_ok (acc p))) in Hexec as [? _];
      [done| |apply dict_ok_nil].
    intros i p0 _ Hp. apply (pool_step_acc _ _ dict_ok); [|done].
    intros x a. apply shuffle_put_ok.
  - apply (exec_pool_content _ _ pairs_of shuffle_put_pairs) in Hexec.
    exact Hexec.
  - intros Hn. by eapply exec_pool_drained.
Qed.

Lemma reduce_phase_spec fuel sr reducer self1 self' :
  reduce_phase fuel sr reducer (_shuffle self1) = Some self' →
  num_mappers self' = num_mappers self1
  ∧ num_reducers self' = num_reducers self1
  ∧ map_queue self' = map_queue self1
  ∧ shuffle_dict self' = shuffle_dict self1
  ∧ results self' ++ reduced reducer (reduce_queue self')
      ≡ₚ results self1
         ++ reduced reducer (reduce_queue self1 ++ shuffle_dict self1)
  ∧ ((empties (reduce_call reducer)
          (reduce_queue self1 ++ shuffle_dict self1)
        < Z.to_nat (num_reducers self1))%nat →
     reduce_queue self' = []).
Proof.
  unfold reduce_phase, _shuffle. simpl. rewrite foldl_put.
  destruct (exec_pool _ _ _ _ _ _) as [p|] eqn:Hexec; [|done].
  simpl. intros [= <-]. simpl. split_and!; try done.
  - apply (exec_pool_content _ _ (λ rs, rs)) in Hexec; [exact Hexec|].
    intros x a. unfold results_append. solve_Permutation.
  - intros Hn. by eapply exec_pool_drained.
Qed.

(** What [run] leaves in the engine and returns, for every schedule. *)
Lemma run_spec fuel sm sr self input_data mapper reducer self' res :
  run fuel sm sr self input_data mapper reducer = Some (self', res) →
  num_mappers self' = num_mappers self
  ∧ num_reducers self' = num_reducers self
  ∧ res = results self'
  ∧ dict_ok (shuffle_dict self')
  ∧ pairs_of (shuffle_dict self') ++ mapped mapper (map_queue self')
      ≡ₚ mapped mapper input_data
  ∧ res ++ reduced reducer (reduce_queue self')
      ≡ₚ reduced reducer (shuffle_dict self')
  ∧ ((empties (map_call mapper) input_data
        < Z.to_nat (num_mappers self))%nat →
     map_queue self' = [])
  ∧ ((empties (reduce_call reducer) (shuffle_dict self')
        < Z.to_nat (num_reducers self))%nat →
     reduce_queue self' = []).
Proof.
  intros (self1 & Hm & Hr & ->)%run_unfold.
  apply map_phase_spec in Hm as (Hnm & Hnr & Hrq & Hres & Hok & Hpairs & Hmq).
  apply reduce_phase_spec in Hr as (Hnm' & Hnr' & Hmq' & Hsd & Hred & Hrq').
  rewrite Hrq, Hres in *. simpl in *.
  rewrite Hsd, Hmq', Hnm', Hnr'. split_and!; try done.
  rewrite <- Hnr. done.
Qed.

(** With more workers in each pool than tasks on which the callback
    raises [queue.Empty], both queues are drained: the table holds exactly
    the mapped pairs and the result exactly what the reducer yields on each
    group. *)
Lemma run_drained fuel sm sr self input_data mapper reducer self' res :
  (empties (map_call mapper) input_data < Z.to_nat (num_mappers self))%nat →
  (empties (reduce_call reducer) (shuffle_dict self')
     < Z.to_nat (num_reducers self))%nat →
  run fuel sm sr self input_data mapper reducer = Some (self', res) →
  dict_ok (shuffle_dict self')
  ∧ pairs_of (shuffle_dict self') ≡ₚ mapped mapper input_data
  ∧ res ≡ₚ reduced reducer (shuffle_dict self').
Proof.
  intros Hm Hr Hrun.
  apply run_spec in Hrun as (_ & _ & _ & Hok & Hp & Hres & Hmq & Hrq).
  rewrite Hmq in Hp by done. rewrite Hrq in Hres by done.
  unfold mapped, reduced in *. simpl in *. rewrite app_nil_r in Hp, Hres.
  done.
Qed.

(** In particular with at least one worker in each pool and no callback
    raising [queue.Empty]. *)
Lemma run_complete fuel sm sr self input_data mapper reducer self' res :
  1 ≤ num_mappers self → 1 ≤ num_reducers self →
  never_empty (map_call mapper) input_data →
  never_empty (reduce_call reducer) (shuffle_dict self') →
  run fuel sm sr self input_data mapper reducer = Some (self', res) →
  dict_ok (shuffle_dict self')
  ∧ pairs_of (shuffle_dict self') ≡ₚ mapped mapper input_data
  ∧ res ≡ₚ reduced reducer (shuffle_dict self').
Proof.
  intros Hnm Hnr Hm Hr. apply run_drained.
  - rewrite never_empty_empties by done. lia.
  - rewrite never_empty_empties by done. lia.
Qed.

Lemma map_phase_returns sm self mapper :
  ∃ N, ∀ fuel, (N ≤ fuel)%nat → is_Some (map_phase fuel sm mapper self).
Proof.
  unfold map_phase.
  exists (budget (map_call mapper)
            (Pool (map_queue self) (shuffle_dict self)
               (spawn (num_mappers self)))).
  intros fuel Hfuel.
  destruct (exec_pool_terminates (map_call mapper) shuffle_put fuel sm 0%nat
              _ Hfuel) as [q1 ->].
  done.
Qed.

Lemma reduce_phase_returns sr self reducer :
  ∃ N, ∀ fuel, (N ≤ fuel)%nat → is_Some (reduce_phase fuel sr reducer self).
Proof.
  unfold reduce_phase.
  exists (budget (reduce_call reducer)
            (Pool (reduce_queue self) (results self)
               (spawn (num_reducers self)))).
  intros fuel Hfuel.
  destruct (exec_pool_terminates (reduce_call reducer) results_append fuel sr
              0%nat _ Hfuel) as [q1 ->].
  done.
Qed.

Lemma map_phase_mono fuel fuel' sm self mapper self1 :
  (fuel ≤ fuel')%nat →
  map_phase fuel sm mapper self = Some self1 →
  map_phase fuel' sm mapper self = Some self1.
Proof.
  intros Hle. unfold map_phase.
  destruct (exec_pool (map_call mapper) _ fuel _ _ _) as [q1|] eqn:H1;
    [|done].
  by rewrite (exec_pool_mono _ _ _ _ _ _ _ _ Hle H1).
Qed.

Lemma reduce_phase_mono fuel fuel' sr self reducer self1 :
  (fuel ≤ fuel')%nat →
  reduce_phase fuel sr reducer self = Some self1 →
  reduce_phase fuel' sr reducer self = Some self1.
Proof.
  intros Hle. unfold reduce_phase.
  destruct (exec_pool (reduce_call reducer) _ fuel _ _ _) as [q1|] eqn:H1;
    [|done].
  by rewrite (exec_pool_mono _ _ _ _ _ _ _ _ Hle H1).
Qed.

Lemma map_phase_single fuel sm sm' self mapper :
  num_mappers self = 1 →
  map_phase fuel sm mapper self = map_phase fuel sm' mapper self.
Proof.
  intros Hn. unfold map_phase.
  by rewrite (exec_pool_single _ _ _ sm sm' 0%nat 0%nat) by (by rewrite Hn).
Qed.

(** [run] returns under every schedule. *)
Lemma run_returns sm sr self input_data mapper reducer :
  ∃ N, ∀ fuel, (N ≤ fuel)%nat →
    is_Some (run fuel sm sr self input_data mapper reducer).
Proof.
  destruct (map_phase_returns sm (load self input_data) mapper) as [N1 H1].
  destruct (H1 N1) as [self1 Hself1]; [done|].
  destruct (reduce_phase_returns sr (_shuffle self1) reducer) as [N2 H2].
  exists (N1 `max` N2)%nat. intros fuel Hfuel. unfold run.
  rewrite (map_phase_mono N1 fuel _ _ _ _ ltac:(lia) Hself1). simpl.
  destruct (H2 fuel) as [self2 ->]; [lia|]. done.
Qed.

Lemma run_mono fuel fuel' sm sr self input_data mapper reducer out :
  (fuel ≤ fuel')%nat →
  run fuel sm sr self input_data mapper reducer = Some out →
  run fuel' sm sr self input_data mapper reducer = Some out.
Proof.
  intros Hle. unfold run.
  destruct (map_phase fuel _ _ _) as [self1|] eqn:H1; [|done].
  rewrite (map_phase_mono _ _ _ _ _ _ Hle H1). simpl.
  destruct (reduce_phase fuel _ _ _) as [self2|] eqn:H2; [|done].
  by rewrite (reduce_phase_mono _ _ _ _ _ _ Hle H2).
Qed.

End FrameworkFacts.


(** * Grouping: the result as a function of the mapped pairs *)

Section Grouping.
Context {K V K' V' R : Type} `{EqDecision K'}.
Implicit Types (reducer : Reducer K' V' R) (d : dict K' V').
Implicit Types (l : list (K' * V')).

Lemma bind_ext_elem {X Y : Type} (f g : X → list Y) (xs : list X) :
  (∀ x, x ∈ xs → f x = g x) → xs ≫= f = xs ≫= g.
Proof.
  induction xs as [|x xs IH]; intros Hfg; [done|].
  rewrite !bind_cons, Hfg by left. f_equal. apply IH.
  intros y Hy. apply Hfg. by right.
Qed.

Lemma bind_fmap_fst {Y : Type} (h : K' → list Y) d :
  d ≫= (λ t, h t.1) = d.*1 ≫= h.
Proof.
  induction d as [|t d IH]; [done|].
  by rewrite fmap_cons, !bind_cons, IH.
Qed.

Lemma dict_ok_pairs_nil d : dict_ok d → pairs_of d = [] → d = [].
Proof.
  intros [_ Hne] Hp. destruct d as [|[k vs] d]; [done|].
  inversion Hne as [|? ? Hvs _]; subst. simpl in Hvs.
  destruct vs as [|v vs]; [done|]. unfold pairs_of in Hp.
  rewrite bind_cons in Hp. simpl in Hp. done.
Qed.

Lemma reduced_groups reducer d l :
  order_insensitive reducer → dict_ok d → pairs_of d ≡ₚ l →
  reduced reducer d ≡ₚ reduce_groups reducer l.
Proof.
  intros Hins Hok Hperm. unfold reduced, reduce_groups, reduce_call.
  transitivity (d.*1 ≫= λ k, yields (reducer k (vals k l))).
  - rewrite <- bind_fmap_fst. erewrite bind_ext_elem; [done|].
    intros [k vs] Hin. simpl. f_equal.
    apply Hins. rewrite <- Hperm.
    by rewrite (dict_vals d k vs) by (done || apply Hok).
  - apply bind_Permutation. apply NoDup_Permutation.
    + apply Hok.
    + apply NoDup_remove_dups.
    + intros k. rewrite elem_of_remove_dups, <- Hperm.
      by apply pairs_of_keys_ok.
Qed.

End Grouping.


(** * The engine's properties *)

Section EngineProperties.
Context {K V K' V' R : Type} `{EqDecision K'}.
Implicit Types (self : MapReduceFramework K V K' V' R).
Implicit Types (mapper : Mapper K V K' V') (reducer : Reducer K' V' R).
Implicit Types (input_data : list (K * V)).

(** [run] reads nothing of the engine but the two pool sizes. *)
Lemma run_fresh fuel sm sr self input_data mapper reducer :
  run fuel sm sr self input_data mapper reducer =
  run fuel sm sr (init (num_mappers self) (num_reducers self))
      input_data mapper reducer.
Proof. reflexivity. Qed.

Lemma map_phase_no_workers fuel sm mapper self :
  num_mappers self ≤ 0 → map_phase fuel sm mapper self = Some self.
Proof.
  intros Hn. unfold map_phase, spawn.
  replace (Z.to_nat (num_mappers self)) with 0%nat by lia.
  rewrite exec_pool_no_workers by done. by destruct self.
Qed.

Lemma reduce_phase_no_workers fuel sr reducer self :
  num_reducers self ≤ 0 → reduce_phase fuel sr reducer self = Some self.
Proof.
  intros Hn. unfold reduce_phase, spawn.
  replace (Z.to_nat (num_reducers self)) with 0%nat by lia.
  rewrite exec_pool_no_workers by done. by destruct self.
Qed.

Lemma result_sources fuel sm sr self input_data mapper reducer self' res r :
  run fuel sm sr self input_data mapper reducer = Some (self', res) →
  r ∈ res →
  ∃ k vs, k ∈ (mapped mapper input_data).*1 ∧ r ∈ yields (reducer k vs).
Proof.
  intros (_ & _ & _ & Hok & Hp & Hres & _)%run_spec Hr.
  assert (r ∈ reduced reducer (shuffle_dict self')) as Hin
    by (rewrite <- Hres; apply elem_of_app; by left).
  apply list_elem_of_bind in Hin as ([k vs] & Hy & Hin).
  exists k, vs. split; [|done].
  assert (k ∈ (pairs_of (shuffle_dict self')).*1) as Hk.
  { apply pairs_of_keys_ok; [done|].
    apply list_elem_of_fmap. by exists (k, vs). }
  rewrite <- Hp, fmap_app. apply elem_of_app. by left.
Qed.

(** C6, as amended.  Whatever the mapper and the reducer do, [run] returns
    a result collection under every schedule once the workers have had
    enough steps; the collection is empty when the input is empty, when no
    mapper invocation yields a pair (for instance because each fails at
    once), and when no reducer invocation yields a result. *)
Theorem run_total sm sr self input_data mapper reducer :
  ∃ N, ∀ fuel, (N ≤ fuel)%nat →
    ∃ self' res,
      run fuel sm sr self input_data mapper reducer = Some (self', res)
      ∧ res = results self'
      ∧ (input_data = [] → res = [])
      ∧ (Forall (λ task, yields (map_call mapper task) = []) input_data →
         res = [])
      ∧ (Forall (λ task, yields (reduce_call reducer task) = [])
                (shuffle_dict self') →
         res = []).
Proof.
  destruct (run_returns sm sr self input_data mapper reducer) as [N HN].
  exists N. intros fuel Hfuel. destruct (HN fuel Hfuel) as [[self' res] Hrun].
  exists self', res. split; [done|].
  pose proof Hrun as (_ & _ & Hres & Hok & Hp & Hred & _)%run_spec.
  assert (mapped mapper input_data = [] → res = []) as Hnone.
  { intros Hm. rewrite Hm in Hp.
    apply Permutation_nil_r, app_eq_nil in Hp as [Hp _].
    apply dict_ok_pairs_nil in Hp; [|done]. rewrite Hp in Hred.
    by apply Permutation_nil_r, app_eq_nil in Hred as [? _]. }
  split_and!; [done| | |].
  - intros ->. by apply Hnone.
  - intros Hall. apply Hnone. by apply bind_nil_Forall.
  - intros Hall.
    assert (reduced reducer (shuffle_dict self') = []) as Hnil
      by (by apply bind_nil_Forall).
    rewrite Hnil in Hred.
    by apply Permutation_nil_r, app_eq_nil in Hred as [? _].
Qed.

(** C7, as amended.  [run] starts by replacing the queues, the shuffle
    table and the result list, so a second run on an engine returns, and
    gives exactly what it gives on a fresh engine of the same pool sizes.
    Every result of the second run is yielded by the reducer for a key that
    the second run's mapper yielded; so, when the reducer yields only
    results that carry the key it was given, a key that only the first
    run's mapper yielded is the key of no result of the second run. *)
Theorem run_state_isolation sm1 sr1 sm2 sr2 self
    input1 input2 mapper1 mapper2 reducer1 reducer2 :
  (∃ N, ∀ fuel, (N ≤ fuel)%nat →
     is_Some (run fuel sm1 sr1 self input1 mapper1 reducer1))
  ∧ ∀ fuel1 self1 res1,
      run fuel1 sm1 sr1 self input1 mapper1 reducer1 = Some (self1, res1) →
      (∃ N, ∀ fuel, (N ≤ fuel)%nat →
         is_Some (run fuel sm2 sr2 self1 input2 mapper2 reducer2))
      ∧ ∀ fuel2 self2 res2,
          run fuel2 sm2 sr2 self1 input2 mapper2 reducer2
            = Some (self2, res2) →
          run fuel2 sm2 sr2 (init (num_mappers self) (num_reducers self))
              input2 mapper2 reducer2 = Some (self2, res2)
          ∧ (∀ r, r ∈ res2 →
               ∃ k vs, k ∈ (mapped mapper2 input2).*1
                       ∧ r ∈ yields (reducer2 k vs))
          ∧ (∀ key : R → K',
               (∀ k vs r, r ∈ yields (reducer2 k vs) → key r = k) →
               ∀ k, k ∈ (mapped mapper1 input1).*1 →
                    k ∉ (mapped mapper2 input2).*1 → k ∉ key <$> res2).
Proof.
  split; [apply run_returns|]. intros fuel1 self1 res1 Hrun1.
  split; [apply run_returns|]. intros fuel2 self2 res2 Hrun2.
  pose proof Hrun1 as (Hnm & Hnr & _)%run_spec.
  assert (∀ r, r ∈ res2 →
            ∃ k vs, k ∈ (mapped mapper2 input2).*1
                    ∧ r ∈ yields (reducer2 k vs)) as Hsrc
    by (intros r; by eapply result_sources).
  split_and!; [|done|].
  - rewrite <- Hnm, <- Hnr, <- run_fresh. done.
  - intros key Hkey k _ Hk2 (r & -> & Hr)%list_elem_of_fmap.
    destruct (Hsrc r Hr) as (k' & vs & Hk' & Hy).
    by rewrite (Hkey _ _ _ Hy) in Hk2.
Qed.

(** C8.  The shuffle step appends to the reduce queue one task per key of
    the table, carrying the values accumulated for that key, and leaves the
    table as it is; a second shuffle step therefore appends the same tasks
    again. *)
Theorem shuffle_partition self :
  NoDup (shuffle_dict self).*1 →
  ∃ pushed,
    reduce_queue (_shuffle self) = reduce_queue self ++ pushed
    ∧ NoDup pushed.*1
    ∧ (∀ k vs, (k, vs) ∈ pushed ↔ dict_get k (shuffle_dict self) = Some vs)
    ∧ (∀ k, k ∈ (shuffle_dict self).*1 → ∃ vs, (k, vs) ∈ pushed)
    ∧ shuffle_dict (_shuffle self) = shuffle_dict self
    ∧ reduce_queue (_shuffle (_shuffle self))
        = reduce_queue (_shuffle self) ++ pushed.
Proof.
  intros Hnd. exists (dict_items (shuffle_dict self)).
  unfold _shuffle, dict_items. simpl. rewrite !foldl_put.
  split_and!; try done.
  - intros k vs. by rewrite dict_get_elem.
  - intros k ([k' vs] & -> & Hin)%list_elem_of_fmap. by exists vs.
Qed.

(** C5, as amended.  With a pool of size zero no worker is started for
    that phase, the queue of the phase is never drained, the join over the
    empty pool completes at once, and [run] returns an empty result
    collection. *)
Theorem zero_pool_run_returns_empty sm sr self input_data mapper reducer :
  num_mappers self ≤ 0 ∨ num_reducers self ≤ 0 →
  ∃ N, ∀ fuel, (N ≤ fuel)%nat →
    ∃ self',
      run fuel sm sr self input_data mapper reducer = Some (self', [])
      ∧ (num_mappers self ≤ 0 →
         map_queue self' = input_data ∧ shuffle_dict self' = [])
      ∧ (num_reducers self ≤ 0 → reduce_queue self' = shuffle_dict self').
Proof.
  intros Hzero.
  destruct (run_returns sm sr self input_data mapper reducer) as [N HN].
  exists N. intros fuel Hfuel. destruct (HN fuel Hfuel) as [[self' res] Hrun].
  pose proof Hrun as (self1 & Hm & Hr & ->)%run_unfold.
  assert (num_mappers self ≤ 0 →
          map_queue self' = input_data ∧ shuffle_dict self' = []) as Hmz.
  { intros Hn. rewrite map_phase_no_workers in Hm by done.
    injection Hm as <-.
    apply reduce_phase_spec in Hr as (_ & _ & -> & -> & _).
    simpl. by rewrite foldl_put. }
  assert (num_reducers self ≤ 0 → reduce_queue self' = shuffle_dict self'
                                  ∧ results self' = []) as Hrz.
  { intros Hn.
    apply map_phase_spec in Hm as (_ & Hnr & Hrq & Hres & _).
    rewrite reduce_phase_no_workers in Hr by (simpl; lia).
    injection Hr as <-. simpl. by rewrite foldl_put, Hrq. }
  assert (results self' = []) as Hnil.
  { destruct Hzero as [Hn|Hn]; [|by apply Hrz].
    apply run_spec in Hrun as (_ & _ & _ & _ & _ & Hred & _).
    destruct (Hmz Hn) as [_ Hsd]. rewrite Hsd in Hred.
    by apply Permutation_nil_r, app_eq_nil in Hred as [? _]. }
  exists self'. rewrite <- Hnil at 1. split_and!; [done|done|].
  intros Hn. by apply Hrz.
Qed.

(** C4, as amended.  An error other than [queue.Empty] raised by a mapper
    invocation is caught inside the worker, which goes back to the head of
    its loop: with at least one mapper thread and no mapper invocation
    raising [queue.Empty], [run] returns under every schedule, every task
    has been taken from the map queue, and the shuffle table holds exactly
    the pairs that the invocations yielded, those yielded by a task before
    it failed included. *)
Theorem map_error_contained sm sr self input_data mapper reducer :
  1 ≤ num_mappers self →
  never_empty (map_call mapper) input_data →
  (∃ N, ∀ fuel, (N ≤ fuel)%nat →
     is_Some (run fuel sm sr self input_data mapper reducer))
  ∧ (∀ fuel self' res,
       run fuel sm sr self input_data mapper reducer = Some (self', res) →
       map_queue self' = []
       ∧ pairs_of (shuffle_dict self') ≡ₚ mapped mapper input_data
       ∧ (∀ task pair,
            task ∈ input_data → pair ∈ yields (map_call mapper task) →
            pair ∈ pairs_of (shuffle_dict self')))
  ∧ (∀ q d, _map_worker mapper (Iterating [] RaisesError) q d
            = (AtLoopHead, q, d))
  ∧ (∀ x xs q d, _map_worker mapper (Iterating (x :: xs) RaisesError) q d
                 = (Iterating xs RaisesError, q, shuffle_put x d)).
Proof.
  intros Hn Hne. split; [apply run_returns|]. split; [|done].
  intros fuel self' res (_ & _ & _ & _ & Hp & _ & Hmq & _)%run_spec.
  assert (map_queue self' = []) as Hnil
    by (apply Hmq; rewrite never_empty_empties by done; lia).
  rewrite Hnil in Hp. unfold mapped in Hp. simpl in Hp.
  rewrite app_nil_r in Hp. rewrite Hnil. split_and!; try done.
  intros task pair Htask Hpair. rewrite Hp.
  apply list_elem_of_bind. by exists task.
Qed.

End EngineProperties.


(** * Results as groups, and the counting job *)

Section GroupedResults.
Context {K V K' V' R : Type} `{EqDecision K'}.
Implicit Types (self : MapReduceFramework K V K' V' R).
Implicit Types (mapper : Mapper K V K' V') (reducer : Reducer K' V' R).
Implicit Types (input_data : list (K * V)) (l : list (K' * V')).

Lemma reduce_groups_Permutation reducer l l' :
  order_insensitive reducer → l ≡ₚ l' →
  reduce_groups reducer l ≡ₚ reduce_groups reducer l'.
Proof.
  intros Hins Hl. unfold reduce_groups.
  transitivity (remove_dups l.*1 ≫= λ k, yields (reducer k (vals k l'))).
  - erewrite bind_ext_elem; [done|]. intros k _. simpl. f_equal.
    apply Hins. by rewrite Hl.
  - apply bind_Permutation, NoDup_Permutation; try apply NoDup_remove_dups.
    intros k. by rewrite !elem_of_remove_dups, Hl.
Qed.

(** With an order-insensitive reducer the result is, up to the order of
    its elements, one reduction per key of the mapped pairs: no schedule
    and no pool size shows in it. *)
Lemma run_groups fuel sm sr self input_data mapper reducer self' res l :
  1 ≤ num_mappers self → 1 ≤ num_reducers self →
  never_empty (map_call mapper) input_data →
  (∀ k vs, ending_of (reducer k vs) ≠ RaisesEmpty) →
  order_insensitive reducer →
  mapped mapper input_data ≡ₚ l →
  run fuel sm sr self input_data mapper reducer = Some (self', res) →
  res ≡ₚ reduce_groups reducer l.
Proof.
  intros Hnm Hnr Hm Hr Hins Hl Hrun.
  apply run_complete in Hrun as (Hok & Hp & ->); try done.
  - apply reduced_groups; [done|done|]. by rewrite Hp.
  - apply Forall_forall. intros [k vs] _. apply Hr.
Qed.

(** Two runs on the same input, whatever their pool sizes (at least one
    worker each) and schedules, return the same results up to order, as
    long as no callback raises [queue.Empty]. *)
Lemma run_deterministic fuel1 fuel2 sm1 sr1 sm2 sr2 self1 self2
    input_data mapper reducer self1' res1 self2' res2 :
  1 ≤ num_mappers self1 → 1 ≤ num_reducers self1 →
  1 ≤ num_mappers self2 → 1 ≤ num_reducers self2 →
  never_empty (map_call mapper) input_data →
  (∀ k vs, ending_of (reducer k vs) ≠ RaisesEmpty) →
  order_insensitive reducer →
  run fuel1 sm1 sr1 self1 input_data mapper reducer = Some (self1', res1) →
  run fuel2 sm2 sr2 self2 input_data mapper reducer = Some (self2', res2) →
  res1 ≡ₚ res2.
Proof.
  intros ? ? ? ? Hm Hr Hins Hrun1 Hrun2.
  eapply (run_groups _ _ _ _ _ _ _ _ _ (mapped mapper input_data))
    in Hrun1; try done.
  eapply (run_groups _ _ _ _ _ _ _ _ _ (mapped mapper input_data))
    in Hrun2; try done.
  by rewrite Hrun1, Hrun2.
Qed.

End GroupedResults.

Section KeyedResults.
Context {K V K' V' W : Type} `{EqDecision K'}.
Implicit Types (self : MapReduceFramework K V K' V' (K' * W)).
Implicit Types (mapper : Mapper K V K' V') (reducer : Reducer K' V' (K' * W)).
Implicit Types (input_data : list (K * V)).

(** C3, as amended.  On an engine with at least one mapper and one reducer
    thread, when no mapper or reducer invocation fails and the reducer
    yields, for each key it is given, at least one pair carrying that key,
    [run] returns under every schedule and every key the mapper yields is a
    key of the result collection; when the reducer moreover yields no pair
    under another key, the keys of the result collection are exactly the
    keys the mapper yields. *)
Theorem no_key_loss sm sr self input_data mapper reducer :
  1 ≤ num_mappers self → 1 ≤ num_reducers self →
  all_return (map_call mapper) input_data →
  (∀ k vs, k ∈ (yields (reducer k vs)).*1) →
  (∃ N, ∀ fuel, (N ≤ fuel)%nat →
     is_Some (run fuel sm sr self input_data mapper reducer))
  ∧ (∀ fuel self' res,
       run fuel sm sr self input_data mapper reducer = Some (self', res) →
       all_return (reduce_call reducer) (shuffle_dict self') →
       (∀ k, k ∈ (mapped mapper input_data).*1 → k ∈ res.*1)
       ∧ ((∀ k vs r, r ∈ yields (reducer k vs) → r.1 = k) →
          ∀ k, k ∈ res.*1 ↔ k ∈ (mapped mapper input_data).*1)).
Proof.
  intros Hnm Hnr Hm Hkey. split; [apply run_returns|].
  intros fuel self' res Hrun Hr.
  pose proof Hrun as (Hok & Hp & Hres)%run_complete;
    try done; try by apply all_return_never_empty.
  assert (∀ k, k ∈ (mapped mapper input_data).*1 → k ∈ res.*1) as Hsub.
  { intros k Hk. rewrite <- Hp in Hk.
    apply pairs_of_keys_ok in Hk; [|done].
    apply list_elem_of_fmap in Hk as ([k' vs] & -> & Hin). simpl.
    destruct (proj1 (list_elem_of_fmap _ _ _) (Hkey k' vs)) as (r & Hr1 & Hr2).
    apply list_elem_of_fmap. exists r. split; [done|]. rewrite Hres.
    apply list_elem_of_bind. by exists (k', vs). }
  split; [done|]. intros Honly k. split; [|by apply Hsub].
  intros (r & -> & Hin)%list_elem_of_fmap.
  destruct (result_sources _ _ _ _ _ _ _ _ _ _ Hrun Hin) as (k & vs & Hk & Hy).
  by rewrite (Honly _ _ _ Hy).
Qed.

End KeyedResults.

Section CountingJob.
Context {K val : Type} `{EqDecision val}.
Implicit Types (self : MapReduceFramework K (gmap string val) val Z (val * Z)).
Implicit Types (input_data : list (K * gmap string val)).

Lemma sum_from (a : Z) (values : list Z) :
  foldl Z.add a values = a + sum values.
Proof.
  unfold sum. revert a.
  induction values as [|x xs IH]; intros a; cbn [foldl].
  - lia.
  - rewrite (IH (a + x)), (IH (0 + x)). lia.
Qed.

Lemma sum_cons (x : Z) (values : list Z) : sum (x :: values) = x + sum values.
Proof. unfold sum at 1. simpl. apply sum_from. Qed.

Lemma sum_app (xs ys : list Z) : sum (xs ++ ys) = sum xs + sum ys.
Proof.
  induction xs as [|x xs IH]; [done|].
  rewrite <- app_comm_cons, !sum_cons, IH. lia.
Qed.

#[global] Instance sum_Permutation : Proper ((≡ₚ) ==> (=)) sum.
Proof.
  intros xs ys Hp. induction Hp as [|x xs ys _ IH|x y xs|xs ys zs _ IH1 _ IH2].
  - done.
  - by rewrite !sum_cons, IH.
  - rewrite !sum_cons. lia.
  - congruence.
Qed.

Lemma count_reducer_insensitive :
  order_insensitive (PassengerFlightCountReducer (val := val)).
Proof.
  intros k vs vs' Hp. unfold PassengerFlightCountReducer. by rewrite Hp.
Qed.

Lemma count_reducer_returns (k : val) (vs : list Z) :
  ending_of (PassengerFlightCountReducer k vs) = Returns.
Proof. done. Qed.

Lemma reduced_counts (d : dict val Z) :
  sum (reduced PassengerFlightCountReducer d).*2 = sum (pairs_of d).*2.
Proof.
  unfold reduced, pairs_of. induction d as [|[k vs] d IH]; [done|].
  rewrite !bind_cons, !fmap_app, !sum_app, IH. simpl.
  rewrite <- list_fmap_compose, sum_cons. simpl.
  rewrite list_fmap_id. unfold sum at 2. simpl. lia.
Qed.

Lemma mapped_counts input_data :
  all_return (map_call PassengerFlightCountMapper) input_data →
  sum (mapped PassengerFlightCountMapper input_data).*2
  = Z.of_nat (length input_data).
Proof.
  unfold mapped. induction 1 as [|[k record] ts Ht _ IH]; [done|].
  rewrite bind_cons, fmap_app, sum_app, IH.
  unfold map_call, PassengerFlightCountMapper in *. simpl in *.
  destruct (record !! "passenger_id"); [|done]. simpl.
  rewrite sum_cons. unfold sum. simpl. lia.
Qed.

Lemma mapped_same_passenger (p : val) input_data :
  Forall (λ task, task.2 !! "passenger_id" = Some p) input_data →
  mapped PassengerFlightCountMapper input_data
  = replicate (length input_data) (p, 1).
Proof.
  unfold mapped. induction 1 as [|[k record] ts Ht _ IH]; [done|].
  rewrite bind_cons, IH. unfold map_call, PassengerFlightCountMapper.
  simpl in *. by rewrite Ht.
Qed.

Lemma reduce_groups_same_passenger (p : val) (n : nat) :
  reduce_groups PassengerFlightCountReducer (replicate (S n) (p, 1))
  = [(p, Z.of_nat (S n))].
Proof.
  unfold reduce_groups.
  assert (remove_dups (replicate (S n) (p, 1)).*1 = [p]) as ->.
  { rewrite fmap_replicate. simpl. induction n as [|n IH]; [done|].
    change (replicate (S (S n)) p) with (p :: replicate (S n) p).
    cbn [remove_dups].
    destruct (decide_rel elem_of p (replicate (S n) p)) as [_|Hn];
      [exact IH|]. exfalso. apply Hn. left. }
  simpl. do 2 f_equal. unfold vals.
  assert (∀ m, sum (filter (λ q : val * Z, q.1 = p) (replicate m (p, 1))).*2
               = Z.of_nat m) as Hm; [|exact (Hm (S n))].
  induction m as [|m IH]; [done|].
  rewrite replicate_S, filter_cons_True by done.
  rewrite fmap_cons, sum_cons, IH. simpl. lia.
Qed.

(** C1, as amended.  Counting job on an engine with at least one mapper
    and one reducer thread, every mapper invocation returning normally:
    under every schedule [run] returns, and the counts it returns add up
    to the number of input records; in particular, when all the records
    carry the same identifier, [run] returns that identifier with the
    number of records. *)
Theorem count_conservation sm sr self input_data :
  1 ≤ num_mappers self → 1 ≤ num_reducers self →
  all_return (map_call PassengerFlightCountMapper) input_data →
  (∃ N, ∀ fuel, (N ≤ fuel)%nat →
     is_Some (run fuel sm sr self input_data
                PassengerFlightCountMapper PassengerFlightCountReducer))
  ∧ (∀ fuel self' res,
       run fuel sm sr self input_data
           PassengerFlightCountMapper PassengerFlightCountReducer
         = Some (self', res) →
       sum res.*2 = Z.of_nat (length input_data)
       ∧ (∀ p, input_data ≠ [] →
               Forall (λ task, task.2 !! "passenger_id" = Some p)
                      input_data →
               res = [(p, Z.of_nat (length input_data))])).
Proof.
  intros Hnm Hnr Hm. split; [apply run_returns|].
  intros fuel self' res Hrun. split.
  - apply run_complete in Hrun as (Hok & Hp & ->); try done.
    + by rewrite reduced_counts, Hp, mapped_counts.
    + by apply all_return_never_empty.
    + by apply Forall_forall.
  - intros p Hne Hall.
    eapply run_groups in Hrun; try done.
    + rewrite (mapped_same_passenger p) in Hrun by done.
      destruct input_data as [|t ts]; [done|]. simpl length in *.
      rewrite reduce_groups_same_passenger in Hrun.
      by apply Permutation_singleton_r in Hrun.
    + by apply all_return_never_empty.
    + apply count_reducer_insensitive.
Qed.

End CountingJob.


(** * The scenario of five records *)

Section Scenario.
Context {K V : Type}.
Implicit Types (self : MapReduceFramework K V string Z (string * Z)).
Implicit Types (mapper : Mapper K V string Z) (input_data : list (K * V)).

Lemma mapped_fmap mapper input_data :
  mapped mapper input_data = (map_call mapper <$> input_data) ≫= yields.
Proof.
  unfold mapped. induction input_data as [|t ts IH]; [done|].
  by rewrite fmap_cons, !bind_cons, IH.
Qed.

(** C2.  Three input pairs mapped to [("P1", 1)] and two mapped to
    [("P2", 1)], reduced by summation: for every pool sizes of at least
    one and every schedule, [run] returns, and what it returns is
    [("P1", 3)] and [("P2", 2)], in some order. *)
Theorem concrete_scenario sm sr self input_data mapper :
  1 ≤ num_mappers self → 1 ≤ num_reducers self →
  map_call mapper <$> input_data
    ≡ₚ [yields_one "P1"; yields_one "P1"; yields_one "P1";
        yields_one "P2"; yields_one "P2"] →
  (∃ N, ∀ fuel, (N ≤ fuel)%nat →
     is_Some (run fuel sm sr self input_data mapper
                PassengerFlightCountReducer))
  ∧ (∀ fuel self' res,
       run fuel sm sr self input_data mapper PassengerFlightCountReducer
         = Some (self', res) →
       res ≡ₚ [("P1", 3); ("P2", 2)]).
Proof.
  intros Hnm Hnr Hmap. split; [apply run_returns|].
  intros fuel self' res Hrun.
  eapply (run_groups _ _ _ _ _ _ _ _ _
            [("P1", 1); ("P1", 1); ("P1", 1); ("P2", 1); ("P2", 1)])
    in Hrun; try done.
  - unfold never_empty.
    apply (proj1 (Forall_fmap (map_call mapper)
                    (λ g, ending_of g ≠ RaisesEmpty) input_data)).
    rewrite Hmap. repeat constructor; done.
  - apply count_reducer_insensitive.
  - by rewrite mapped_fmap, Hmap.
Qed.

End Scenario.


(** * Concrete runs *)

(** C1, counterexample: an engine built with no reducer thread returns an
    empty collection for one record whose mapper invocation succeeds. *)
Lemma count_conservation_counterexample :
  ∃ self' res,
    run 20 round_robin round_robin no_reducers one_record
        PassengerFlightCountMapper PassengerFlightCountReducer
      = Some (self', res)
    ∧ all_return (map_call PassengerFlightCountMapper) one_record
    ∧ sum res.*2 ≠ Z.of_nat (length one_record).
Proof.
  eexists _, _. split; [vm_compute; reflexivity|].
  split; [repeat constructor|]. vm_compute. discriminate.
Qed.

Lemma count_conservation_witness :
  ∃ self' res,
    run 60 round_robin round_robin (init 3 2) five_records
        PassengerFlightCountMapper PassengerFlightCountReducer
      = Some (self', res)
    ∧ sum res.*2 = Z.of_nat (length five_records).
Proof.
  eexists _, _. split; [vm_compute; reflexivity|].
  refine (proj1 (proj2 (count_conservation round_robin round_robin (init 3 2)
                          five_records _ _ _) 60%nat _ _ _)).
  all: try (vm_compute; reflexivity).
  - simpl; lia.
  - simpl; lia.
  - repeat constructor.
Defined.

Lemma concrete_scenario_witness :
  ∃ self' res,
    run 60 round_robin first_running (init 8 4) five_records
        PassengerFlightCountMapper PassengerFlightCountReducer
      = Some (self', res)
    ∧ res ≡ₚ [("P1", 3); ("P2", 2)].
Proof.
  eexists _, _. split; [vm_compute; reflexivity|].
  refine (proj2 (concrete_scenario round_robin first_running (init 8 4)
                   five_records PassengerFlightCountMapper _ _ _) 60%nat _ _ _).
  - simpl; lia.
  - simpl; lia.
  - vm_compute. apply perm_skip.
    eapply perm_trans; [apply perm_swap|]. apply perm_skip, perm_swap.
  - vm_compute; reflexivity.
Defined.

(** C3, counterexample: with no reducer thread the key the mapper yields
    is missing from the result collection. *)
Lemma no_key_loss_counterexample :
  ∃ self' res,
    run 20 round_robin round_robin no_reducers one_record
        PassengerFlightCountMapper PassengerFlightCountReducer
      = Some (self', res)
    ∧ all_return (map_call PassengerFlightCountMapper) one_record
    ∧ all_return (reduce_call PassengerFlightCountReducer)
        (shuffle_dict self')
    ∧ "P1" ∈ (mapped PassengerFlightCountMapper one_record).*1
    ∧ "P1" ∉ res.*1.
Proof.
  eexists _, _. split; [vm_compute; reflexivity|].
  split_and!; [repeat constructor|repeat constructor|vm_compute; left|].
  vm_compute. apply not_elem_of_nil.
Qed.

Lemma no_key_loss_witness :
  ∃ self' res,
    run 60 round_robin round_robin (init 3 2) five_records
        PassengerFlightCountMapper PassengerFlightCountReducer
      = Some (self', res)
    ∧ ∀ k, k ∈ res.*1
           ↔ k ∈ (mapped PassengerFlightCountMapper five_records).*1.
Proof.
  eexists _, _. split; [vm_compute; reflexivity|].
  refine (proj2 (proj2 (no_key_loss round_robin round_robin (init 3 2)
                          five_records PassengerFlightCountMapper
                          PassengerFlightCountReducer _ _ _ _)
                   60%nat _ _ _ _) _).
  all: try (vm_compute; reflexivity).
  - simpl; lia.
  - simpl; lia.
  - repeat constructor.
  - intros k vs. simpl. left.
  - repeat constructor.
  - intros k vs r. simpl. by intros ->%list_elem_of_singleton.
Defined.

(** C4, counterexample: the pair a mapper invocation yielded before it
    raised is in the shuffle table after the run. *)
Lemma map_error_contained_counterexample :
  ∃ self' res,
    run 20 round_robin round_robin (init 1 1) [(0, "a")]
        yield_then_raise PassengerFlightCountReducer
      = Some (self', res)
    ∧ ending_of (yield_then_raise 0 "a") = RaisesError
    ∧ ("a", 1) ∈ pairs_of (shuffle_dict self').
Proof.
  eexists _, _. split; [vm_compute; reflexivity|].
  split; [done|]. vm_compute. left.
Qed.

Lemma map_error_contained_witness :
  ∃ self' res,
    run 20 round_robin round_robin (init 1 1) [(0, "a"); (1, "b")]
        yield_then_raise PassengerFlightCountReducer
      = Some (self', res)
    ∧ map_queue self' = []
    ∧ pairs_of (shuffle_dict self')
        ≡ₚ mapped yield_then_raise [(0, "a"); (1, "b")].
Proof.
  eexists _, _. split; [vm_compute; reflexivity|].
  refine ((λ H, conj (proj1 H) (proj1 (proj2 H)))
            (proj1 (proj2 (map_error_contained round_robin round_robin
                             (init 1 1) [(0, "a"); (1, "b")] yield_then_raise
                             PassengerFlightCountReducer _ _))
               20%nat _ _ _)).
  all: try (vm_compute; reflexivity).
  - simpl; lia.
  - repeat constructor; done.
Defined.

(** C5, counterexample: engines built with no mapper thread, or with no
    reducer thread, return from [run] on a non-empty input. *)
Lemma zero_pool_counterexample :
  one_record ≠ []
  ∧ is_Some (run 2 round_robin round_robin no_mappers one_record
               PassengerFlightCountMapper PassengerFlightCountReducer)
  ∧ is_Some (run 20 round_robin round_robin no_reducers one_record
               PassengerFlightCountMapper PassengerFlightCountReducer).
Proof. split_and!; [done| |]; vm_compute; by eexists. Qed.

Lemma zero_pool_run_returns_empty_witness :
  ∃ N, ∀ fuel, (N ≤ fuel)%nat →
    ∃ self',
      run fuel round_robin round_robin no_mappers one_record
          PassengerFlightCountMapper PassengerFlightCountReducer
        = Some (self', [])
      ∧ map_queue self' = one_record.
Proof.
  destruct (zero_pool_run_returns_empty round_robin round_robin no_mappers
              one_record PassengerFlightCountMapper
              PassengerFlightCountReducer) as [N HN].
  - left. simpl. lia.
  - exists N. intros fuel Hfuel.
    destruct (HN fuel Hfuel) as (self' & Hrun & Hm & _).
    exists self'. split; [done|]. apply Hm. simpl. lia.
Defined.

(** C6, counterexample: every mapper invocation and every reducer
    invocation fails, and the result collection is not empty. *)
Lemma run_total_counterexample :
  ∃ self' res,
    run 20 round_robin round_robin (init 1 1) [(0, "a")]
        yield_then_raise sum_then_raise
      = Some (self', res)
    ∧ (∀ key value, ending_of (yield_then_raise key value) = RaisesError)
    ∧ (∀ key values, ending_of (sum_then_raise key values) = RaisesError)
    ∧ res ≠ [].
Proof.
  eexists _, _. split; [vm_compute; reflexivity|]. done.
Qed.

(** C7, counterexample: the second run's mapper never yields ["P1"], the
    first run's mapper does, and ["P1"] is a key of the second run's result
    collection, because the reducer puts it there. *)
Lemma run_state_isolation_counterexample :
  ∃ self1 res1 self2 res2,
    run 20 round_robin round_robin (init 1 1) one_record
        PassengerFlightCountMapper totals_under_P1
      = Some (self1, res1)
    ∧ run 20 round_robin round_robin self1 another_record
        PassengerFlightCountMapper totals_under_P1
      = Some (self2, res2)
    ∧ ("P1" ∈ (mapped PassengerFlightCountMapper one_record).*1)
    ∧ ("P1" ∉ (mapped PassengerFlightCountMapper another_record).*1)
    ∧ ("P1" ∈ res2.*1).
Proof.
  eexists _, _, _, _.
  split; [vm_compute; reflexivity|]. split; [vm_compute; reflexivity|].
  split_and!; [vm_compute; left| |vm_compute; left].
  vm_compute. intros [?|Hin]%elem_of_cons; [done|by apply elem_of_nil in Hin].
Qed.

Lemma run_state_isolation_witness :
  ∃ self1 res1 self2 res2,
    run 60 round_robin round_robin (init 3 2) five_records
        PassengerFlightCountMapper PassengerFlightCountReducer
      = Some (self1, res1)
    ∧ run 60 first_running round_robin self1 other_records
        PassengerFlightCountMapper PassengerFlightCountReducer
      = Some (self2, res2)
    ∧ run 60 first_running round_robin (init 3 2) other_records
        PassengerFlightCountMapper PassengerFlightCountReducer
      = Some (self2, res2)
    ∧ "P1" ∉ fst <$> res2.
Proof.
  eexists _, _, _, _.
  split; [vm_compute; reflexivity|]. split; [vm_compute; reflexivity|].
  refine ((λ H, conj (proj1 H)
                  (proj2 (proj2 H) fst _ "P1" _ _))
            (proj2 (proj2 (run_state_isolation round_robin round_robin
                             first_running round_robin (init 3 2)
                             five_records other_records
                             PassengerFlightCountMapper
                             PassengerFlightCountMapper
                             PassengerFlightCountReducer
                             PassengerFlightCountReducer)
                      60%nat _ _ _)
               60%nat _ _ _)).
  all: try (vm_compute; reflexivity).
  - intros k vs r. simpl. by intros ->%list_elem_of_singleton.
  - vm_compute. left.
  - vm_compute. intros Hin. repeat (apply elem_of_cons in Hin as [?|Hin];
      [discriminate|]). by apply elem_of_nil in Hin.
Defined.

Lemma shuffle_partition_witness :
  ∃ pushed,
    reduce_queue (_shuffle (K := Z) (V := string) (R := string * Z)
                    {| num_mappers := 4; num_reducers := 2;
                       map_queue := [];
                       shuffle_dict := [("P1", [1; 1; 1]); ("P2", [1; 1])];
                       reduce_queue := []; results := [] |})
      = [] ++ pushed
    ∧ NoDup pushed.*1.
Proof.
  destruct (shuffle_partition (K := Z) (V := string) (R := string * Z)
              {| num_mappers := 4; num_reducers := 2;
                 map_queue := [];
                 shuffle_dict := [("P1", [1; 1; 1]); ("P2", [1; 1])];
                 reduce_queue := []; results := [] |})
    as (pushed & H1 & H2 & _).
  - simpl. apply NoDup_cons. split.
    + by intros ?%list_elem_of_singleton.
    + apply NoDup_singleton.
  - exists pushed. by split.
Defined.

(** C9, on the code.  The same two tasks, the mapper raising
    [queue.Empty] on the first, the reducer summing.  With one mapper
    thread the thread leaves on the first task and the second task is
    never mapped: [run] returns no result, under every schedule.  With two
    mapper threads or more the second task is mapped: [run] returns
    [("b", 1)], under every schedule. *)
Theorem queue_empty_breaks_determinism :
  order_insensitive (PassengerFlightCountReducer (val := string))
  ∧ (∀ fuel sm sr nr self' res,
       run fuel sm sr (init 1 nr) two_tasks
           empty_on_first PassengerFlightCountReducer = Some (self', res) →
       res = [])
  ∧ (∀ fuel sm sr nm nr self' res,
       2 ≤ nm → 1 ≤ nr →
       run fuel sm sr (init nm nr) two_tasks
           empty_on_first PassengerFlightCountReducer = Some (self', res) →
       res = [("b", 1)])
  ∧ snd <$> run 20 round_robin round_robin (init 1 1) two_tasks
              empty_on_first PassengerFlightCountReducer
      = Some []
  ∧ snd <$> run 20 round_robin round_robin (init 2 1) two_tasks
              empty_on_first PassengerFlightCountReducer
      = Some [("b", 1)]
  ∧ snd <$> run 40 first_running first_running (init 8 4) two_tasks
              empty_on_first PassengerFlightCountReducer
      = Some [("b", 1)].
Proof.
  split_and!; [apply count_reducer_insensitive| | |vm_compute; reflexivity..].
  - intros fuel sm sr nr self' res Hrun.
    pose proof Hrun as (_ & _ & _ & _ & _ & Hred & _)%run_spec.
    apply run_unfold in Hrun as (self1 & Hm & Hr & _).
    rewrite (map_phase_single _ sm round_robin) in Hm by done.
    apply (map_phase_mono fuel (fuel `max` 20)) in Hm; [|lia].
    assert (map_phase 20 round_robin empty_on_first
              (load (init (R := string * Z) 1 nr) two_tasks)
            = Some {| num_mappers := 1; num_reducers := nr;
                      map_queue := [(1, "b")]; shuffle_dict := [];
                      reduce_queue := []; results := [] |}) as H20
      by (vm_compute; reflexivity).
    apply (map_phase_mono 20 (fuel `max` 20)) in H20; [|lia].
    rewrite H20 in Hm. injection Hm as <-.
    apply reduce_phase_spec in Hr as (_ & _ & _ & Hsd & _).
    rewrite Hsd in Hred. simpl in Hred.
    by apply Permutation_nil_r, app_eq_nil in Hred as [? _].
  - intros fuel sm sr nm nr self' res Hnm Hnr Hrun.
    apply run_drained in Hrun as (Hok & Hp & Hres).
    + rewrite (reduced_groups _ _ [("b", 1)]) in Hres;
        [|apply count_reducer_insensitive|done|done].
      by apply Permutation_singleton_r in Hres.
    + simpl. change (empties (map_call empty_on_first) two_tasks) with 1%nat.
      lia.
    + rewrite never_empty_empties; [simpl; lia|].
      by apply Forall_forall.
Qed.

(** * The airport parser *)

Section Parser.
Implicit Types (s rest : list ascii) (c : ascii).

Lemma rep_prefix_spec (cls : ascii → bool) lo hi s rest :
  rest ∈ rep_prefix cls lo hi s →
  ∃ pre, s = pre ++ rest ∧ forallb cls pre = true ∧ (lo ≤ length pre)%nat
         ∧ ∀ h, hi = Some h → (length pre ≤ h)%nat.
Proof.
  revert lo hi. induction s as [|c s IH]; intros lo hi; simpl.
  - rewrite app_nil_r. destruct lo; [|by intros ?%elem_of_nil].
    intros ->%list_elem_of_singleton. exists []. split_and!; try done.
    intros h _. simpl. lia.
  - intros [Hin|Hin]%elem_of_app.
    + destruct lo; [|by apply elem_of_nil in Hin].
      apply list_elem_of_singleton in Hin as ->. exists [].
      split_and!; try done. intros h _. simpl. lia.
    + assert (hi ≠ Some 0%nat ∧ cls c = true
              ∧ rest ∈ rep_prefix cls (pred lo) (pred <$> hi) s)
        as (Hhi & Hc & Hrest).
      { destruct hi as [[|h]|]; [by apply elem_of_nil in Hin| |];
          (destruct (cls c); [done|by apply elem_of_nil in Hin]). }
      destruct (IH _ _ Hrest) as (pre & -> & Hpre & Hlo & Hmax).
      exists (c :: pre). simpl. rewrite Hc. split_and!; try done; [lia|].
      intros h ->. destruct h as [|h]; [done|].
      specialize (Hmax h eq_refl). lia.
Qed.

Lemma at_end_spaces rest : at_end rest = true → forallb is_space rest = true.
Proof.
  destruct rest as [|c [|c' rest]]; simpl; try done.
  intros ->%Ascii.eqb_eq. done.
Qed.

Lemma digit_not_space c : digit c = true → is_space c = false.
Proof.
  unfold digit, is_space, in_range.
  destruct (48 <=? nat_of_ascii c)%nat eqn:H1; [|done].
  destruct (nat_of_ascii c <=? 57)%nat eqn:H2; [|done]. intros _.
  apply Nat.leb_le in H1. apply Nat.leb_le in H2.
  apply orb_false_iff. split; apply andb_false_iff.
  - right. apply Nat.leb_gt. lia.
  - right. apply Nat.leb_gt. lia.
Qed.

Lemma digit_not_char c c' : digit c = true → digit c' = false →
  Ascii.eqb c c' = false.
Proof.
  intros Hc Hc'. destruct (Ascii.eqb_spec c c') as [->|]; [congruence|done].
Qed.

Lemma lstrip_head c s : is_space c = false → lstrip (c :: s) = c :: s.
Proof. intros Hc. simpl. by rewrite Hc. Qed.

Lemma rstrip_spaces rest : forallb is_space rest = true → rstrip rest = [].
Proof.
  induction rest as [|c rest IH]; [done|]. simpl.
  intros [Hc Hrest]%andb_true_iff. by rewrite IH, Hc.
Qed.

Lemma rstrip_snoc s c rest :
  is_space c = false → forallb is_space rest = true →
  rstrip (s ++ c :: rest) = s ++ [c].
Proof.
  intros Hc Hrest. induction s as [|c' s IH]; simpl.
  - by rewrite rstrip_spaces, Hc.
  - rewrite IH. by destruct s.
Qed.

Lemma span_digits ds s :
  forallb digit ds = true → (∀ c s', s = c :: s' → digit c = false) →
  span digit (ds ++ s) = (ds, s).
Proof.
  intros Hds Hs. induction ds as [|d ds IH]; cbn [app span].
  - destruct s as [|c s']; [done|]. cbn [span]. by rewrite (Hs c s').
  - cbn [forallb] in Hds. apply andb_true_iff in Hds as [-> Hds].
    by rewrite IH.
Qed.

Lemma lit_prefix_spec c s rest :
  rest ∈ match_prefix (Lit c) s → s = c :: rest.
Proof.
  destruct s as [|c' s]; simpl; [by intros ?%elem_of_nil|].
  destruct (Ascii.eqb_spec c c') as [->|]; [|by intros ?%elem_of_nil].
  by intros ->%list_elem_of_singleton.
Qed.

(** The shape of the strings that match [COORDINATE_PATTERN]. *)
Lemma coordinate_shape (x : string) :
  re_match COORDINATE_PATTERN x = true →
  ∃ sign ds fr rest,
    String.list_ascii_of_string x = sign ++ ds ++ fr ++ rest
    ∧ (sign = [] ∨ sign = ["-"%char])
    ∧ ds ≠ [] ∧ forallb digit ds = true
    ∧ (fr = [] ∨ ∃ fs, fr = "."%char :: fs ∧ fs ≠ []
                       ∧ forallb digit fs = true)
    ∧ at_end rest = true.
Proof.
  unfold re_match. generalize (String.list_ascii_of_string x). intros s.
  intros (rest & Hin & Hend)%existsb_exists.
  apply list_elem_of_In in Hin. unfold COORDINATE_PATTERN in Hin.
  cbn [match_prefix] in Hin.
  apply list_elem_of_bind in Hin as (s1 & Hin & Hsign).
  apply list_elem_of_bind in Hin as (s2 & Hfrac & Hint).
  apply rep_prefix_spec in Hint as (ds & -> & Hds & Hlen & _).
  assert (∃ sign, s = sign ++ ds ++ s2 ∧ (sign = [] ∨ sign = ["-"%char]))
    as (sign & -> & Hsg).
  { apply elem_of_app in Hsign as [Hs|Hs].
    - apply (lit_prefix_spec "-" s) in Hs. exists ["-"%char]. by split; [|right].
    - apply list_elem_of_singleton in Hs as <-. exists []. by split; [|left]. }
  assert (∃ fr, s2 = fr ++ rest
                ∧ (fr = [] ∨ ∃ fs, fr = "."%char :: fs ∧ fs ≠ []
                                   ∧ forallb digit fs = true))
    as (fr & -> & Hfr).
  { apply elem_of_app in Hfrac as [Hf|Hf].
    - apply list_elem_of_bind in Hf as (s3 & Hf & Hdot).
      apply (lit_prefix_spec "." s2) in Hdot as ->.
      apply rep_prefix_spec in Hf as (fs & -> & Hfs & Hfl & _).
      exists ("."%char :: fs). split; [done|]. right. exists fs.
      split_and!; [done| |done]. by destruct fs; [simpl in Hfl; lia|].
    - apply list_elem_of_singleton in Hf as ->. exists []. by split; [|left]. }
  exists sign, ds, fr, rest. split_and!; try done.
  by destruct ds; [simpl in Hlen; lia|].
Qed.

(** [float] accepts every string that matches [COORDINATE_PATTERN]. *)
Lemma coordinate_float (x : string) :
  re_match COORDINATE_PATTERN x = true → is_Some (float x).
Proof.
  intros (sign & ds & fr & rest & Hx & Hsign & Hne & Hds & Hfr & Hend)
    %coordinate_shape.
  unfold float. rewrite Hx. clear Hx.
  apply at_end_spaces in Hend.
  (* the last character before [rest] is a digit *)
  assert (∃ body d, ds ++ fr = body ++ [d] ∧ digit d = true)
    as (body & d & Hbody & Hd).
  { destruct Hfr as [->|(fs & -> & Hfs & Hfd)].
    - rewrite app_nil_r. destruct ds as [|d0 ds0] using rev_ind; [done|].
      exists ds0, d0. split; [done|].
      rewrite forallb_app in Hds. apply andb_true_iff in Hds as [_ Hd0].
      simpl in Hd0. by rewrite andb_true_r in Hd0.
    - destruct fs as [|d0 fs0] using rev_ind; [done|].
      exists (ds ++ "."%char :: fs0), d0. split.
      + by rewrite <- app_assoc.
      + rewrite forallb_app in Hfd. apply andb_true_iff in Hfd as [_ Hd0].
        simpl in Hd0. by rewrite andb_true_r in Hd0. }
  (* the first character is the sign or a digit: nothing is stripped
     there *)
  destruct ds as [|d1 ds1]; [done|].
  pose proof Hds as Hds'. cbn [forallb] in Hds'.
  apply andb_true_iff in Hds' as [Hd1 _].
  assert (rstrip (lstrip (sign ++ (d1 :: ds1) ++ fr ++ rest))
          = sign ++ (d1 :: ds1) ++ fr) as ->.
  { assert (lstrip (sign ++ (d1 :: ds1) ++ fr ++ rest)
            = sign ++ (d1 :: ds1) ++ fr ++ rest) as ->.
    { destruct Hsign as [->| ->]; cbn [app].
      - apply lstrip_head. by apply digit_not_space.
      - by apply lstrip_head. }
    rewrite (app_assoc (d1 :: ds1) fr rest), Hbody.
    rewrite <- (app_assoc body [d] rest), (app_assoc sign body).
    cbn [app]. rewrite rstrip_snoc; [|by apply digit_not_space|done].
    by rewrite <- app_assoc. }
  assert (∃ negative,
            (match sign ++ (d1 :: ds1) ++ fr with
             | c :: u =>
                 if Ascii.eqb c "-" then (true, u)
                 else if Ascii.eqb c "+" then (false, u)
                 else (false, sign ++ (d1 :: ds1) ++ fr)
             | [] => (false, sign ++ (d1 :: ds1) ++ fr)
             end) = (negative, (d1 :: ds1) ++ fr)) as [negative ->].
  { destruct Hsign as [->| ->]; cbn [app].
    - exists false. by rewrite !(digit_not_char d1).
    - by exists true. }
  rewrite span_digits; [|done|].
  - destruct Hfr as [->|(fs & -> & Hfs & Hfd)]; [done|].
    rewrite Hfd. cbn [andb negb].
    rewrite (bool_decide_eq_false_2 (d1 :: ds1 = [])) by done. done.
  - intros c s' Hc. destruct Hfr as [->|(fs & -> & _)]; [done|].
    by injection Hc as <- _.
Qed.

(** C10.  A row whose name, code and latitude are valid and whose
    longitude matches the numeric pattern passes
    [_validate_airport_record], whatever the magnitude of the longitude,
    and [parse] returns the airport with that longitude. *)
Theorem longitude_range_not_checked (line_num : nat)
    (name code latitude longitude : string) (lat_float : Q) :
  re_match AIRPORT_NAME_PATTERN name = true →
  re_match AIRPORT_CODE_PATTERN code = true →
  re_match COORDINATE_PATTERN latitude = true →
  float latitude = Some lat_float →
  (inject_Z (-90) <= lat_float)%Q → (lat_float <= inject_Z 90)%Q →
  re_match COORDINATE_PATTERN longitude = true →
  ∃ lon_float,
    float longitude = Some lon_float
    ∧ _validate_airport_record line_num name code latitude longitude = true
    ∧ parse [[name; code; latitude; longitude]] !! code
      = Some {| name := name; code := code;
                latitude := lat_float; longitude := lon_float |}.
Proof.
  intros Hname Hcode Hlat Hfloat Hlo Hhi Hlon.
  destruct (coordinate_float longitude Hlon) as [lon_float Hlonf].
  exists lon_float. split; [done|].
  assert (∀ n, _validate_airport_record n name code latitude longitude
               = true) as Hvalid.
  { intros n. unfold _validate_airport_record.
    rewrite Hname, Hcode, Hlat, Hlon, Hfloat, Hlonf. cbn [negb].
    unfold Qlt_bool.
    rewrite (proj2 (Qle_bool_iff _ _) Hlo), (proj2 (Qle_bool_iff _ _) Hhi).
    cbn [negb orb].
    assert (Qle_bool (inject_Z (-180)) lat_float = true) as ->.
    { apply Qle_bool_iff. eapply Qle_trans; [|exact Hlo]. done. }
    assert (Qle_bool lat_float (inject_Z 180) = true) as ->.
    { apply Qle_bool_iff. eapply Qle_trans; [exact Hhi|]. done. }
    done. }
  split; [done|].
  unfold parse. cbn [foldl fst snd]. unfold parse_row.
  rewrite Hvalid. cbn [negb]. rewrite Hfloat, Hlonf. apply lookup_insert_eq.
Qed.

End Parser.

Lemma longitude_range_not_checked_witness :
  _validate_airport_record 1 "Heathrow" "LHR" "51.4775" "500.0" = true
  ∧ longitude <$> parse [["Heathrow"; "LHR"; "51.4775"; "500.0"]] !! "LHR"
    = Some (500.0)%Q
  ∧ Qlt_bool (inject_Z 180) (500.0)%Q = true.
Proof.
  destruct (longitude_range_not_checked 1 "Heathrow" "LHR" "51.4775" "500.0"
              (51.4775)%Q) as (lon_float & Hf & Hv & Hp).
  - vm_compute; reflexivity.
  - vm_compute; reflexivity.
  - vm_compute; reflexivity.
  - vm_compute; reflexivity.
  - vm_compute; discriminate.
  - vm_compute; discriminate.
  - vm_compute; reflexivity.
  - vm_compute in Hf. injection Hf as <-.
    split; [exact Hv|]. split; [by rewrite Hp|]. vm_compute; reflexivity.
Defined.


(** * Further properties of the engine *)

Section SingleWorker.
Context {T I A : Type}.
Variable call : T → generator I.
Variable push : I → A → A.

#[local] Abbreviation pool1 := (pool T I A).

(** What a single worker will have accumulated once the queue is
    exhausted. *)
Definition outcome_of (p : pool1) : A :=
  foldl (λ a x, push x a) (acc p)
    ((workers p ≫= pending) ++ queued call (queue p)).

Lemma pool_step_outcome (i : nat) (p : pool1) :
  length (workers p) = 1%nat →
  length (workers (pool_step call push i p)) = 1%nat
  ∧ outcome_of (pool_step call push i p) = outcome_of p.
Proof.
  destruct p as [q a [|w [|? ?]]]; try done. intros _.
  unfold pool_step, outcome_of. simpl.
  destruct i as [|i]; simpl; [|done].
  destruct w as [| |[|x xs] e|]; simpl.
  - by destruct q.
  - destruct q as [|t q]; [done|]. simpl. split; [done|].
    by rewrite app_nil_r.
  - by destruct e.
  - done.
  - done.
Qed.

Lemma exec_pool_sequential fuel sched n (q : list T) (a : A) (p' : pool1) :
  Forall (λ t, ending_of (call t) ≠ RaisesEmpty) q →
  exec_pool call push fuel sched n (Pool q a (spawn 1)) = Some p' →
  queue p' = [] ∧ acc p' = foldl (λ a x, push x a) a (queued call q).
Proof.
  intros Hq Hexec.
  assert (queue p' = []) as Hnil.
  { eapply (exec_pool_drained call push); [|exact Hexec].
    rewrite never_empty_empties by done. simpl. lia. }
  split; [done|].
  apply (exec_pool_invariant call push
           (λ p, length (workers p) = 1%nat
                 ∧ outcome_of p = foldl (λ a x, push x a) a (queued call q)))
    in Hexec as [[Hlen Hout] Hfin].
  - unfold outcome_of in Hout. rewrite Hnil in Hout.
    assert (workers p' ≫= pending = []) as Hpend.
    { clear -Hfin. induction Hfin as [|w ws -> _ IH]; [done|].
      by rewrite bind_cons, IH. }
    rewrite Hpend in Hout. done.
  - intros i p _ [Hlen Hout].
    destruct (pool_step_outcome i p Hlen) as [? Heq]. by rewrite Heq.
  - done.
Qed.

End SingleWorker.

Section GroupFacts.
Context {K' V' : Type} `{EqDecision K'}.
Implicit Types (d : dict K' V') (k : K') (v : V') (l : list (K' * V')).

Lemma group_snoc l (kv : K' * V') : group (l ++ [kv]) = shuffle_put kv (group l).
Proof. unfold group. by rewrite foldl_app. Qed.

Lemma first_occurrences_snoc (ks : list K') k :
  first_occurrences (ks ++ [k])
  = if decide (k ∈ first_occurrences ks) then first_occurrences ks
    else first_occurrences ks ++ [k].
Proof. unfold first_occurrences. by rewrite foldl_app. Qed.

Lemma group_keys l : (group l).*1 = first_occurrences l.*1.
Proof.
  induction l as [|[k v] l IH] using rev_ind; [done|].
  rewrite group_snoc, shuffle_put_keys, fmap_app.
  cbn [fmap list_fmap fst]. by rewrite first_occurrences_snoc, IH.
Qed.

Lemma group_ok l : dict_ok (group l).
Proof.
  induction l as [|kv l IH] using rev_ind; [apply dict_ok_nil|].
  rewrite group_snoc. by apply shuffle_put_ok.
Qed.

Lemma vals_of_group k k' (vs : list V') :
  vals k ((λ v, (k', v)) <$> vs) = if decide (k' = k) then vs else [].
Proof.
  destruct (decide (k' = k)) as [->|Hne]; [apply vals_group_same|].
  apply vals_absent. rewrite <- list_fmap_compose.
  intros (v & Hk & _)%list_elem_of_fmap. simpl in Hk. done.
Qed.

Lemma vals_snoc k l (kv : K' * V') :
  vals k (l ++ [kv]) = vals k l ++ (if decide (kv.1 = k) then [kv.2] else []).
Proof.
  rewrite vals_app. f_equal. destruct kv as [k' v].
  apply (vals_of_group k k' [v]).
Qed.

Lemma dict_get_None d k : dict_get k d = None ↔ k ∉ d.*1.
Proof.
  induction d as [|[k' vs] d IH]; simpl.
  - split; [intros _; apply not_elem_of_nil|done].
  - destruct (decide (k' = k)) as [->|Hne].
    + split; [done|]. intros Hk. exfalso. apply Hk. left.
    + rewrite IH. split.
      * intros Hk [?|?]%elem_of_cons; [congruence|done].
      * intros Hk ?. apply Hk. by right.
Qed.

Lemma vals_dict_get d k :
  NoDup d.*1 → vals k (pairs_of d) = default [] (dict_get k d).
Proof.
  intros Hnd. destruct (dict_get k d) as [vs|] eqn:Hget; simpl.
  - apply dict_vals; [done|]. by apply dict_get_elem.
  - apply vals_absent. intros ?%pairs_of_keys. by apply dict_get_None in Hget.
Qed.

Lemma dict_get_shuffle_put d k k' v :
  dict_get k (shuffle_put (k', v) d)
  = if decide (k' = k) then Some (default [] (dict_get k d) ++ [v])
    else dict_get k d.
Proof.
  induction d as [|[k1 vs] d IH]; rewrite shuffle_put_unfold; simpl.
  - by destruct (decide (k' = k)).
  - destruct (decide (k1 = k')) as [->|Hne]; simpl.
    + by destruct (decide (k' = k)).
    + rewrite IH. destruct (decide (k1 = k)) as [->|Hk]; [|done].
      by rewrite decide_False by done.
Qed.

Lemma group_vals k l : vals k (pairs_of (group l)) = vals k l.
Proof.
  induction l as [|[k' v] l IH] using rev_ind; [done|].
  rewrite group_snoc, vals_snoc, <- IH. simpl.
  rewrite (vals_dict_get (shuffle_put _ _))
    by apply dict_keys_nodup, shuffle_put_ok, group_ok.
  rewrite (vals_dict_get (group l)) by apply dict_keys_nodup, group_ok.
  rewrite dict_get_shuffle_put.
  destruct (decide (k' = k)); simpl; [done|by rewrite app_nil_r].
Qed.

Lemma fmap_id_elem {X : Type} (f : X → X) (xs : list X) :
  (∀ x, x ∈ xs → f x = x) → f <$> xs = xs.
Proof.
  induction xs as [|x xs IH]; intros Hf; [done|].
  rewrite fmap_cons, Hf by left. f_equal. apply IH.
  intros y Hy. apply Hf. by right.
Qed.

(** A table is its keys, each with the values its pairs give it. *)
Lemma dict_canonical d :
  NoDup d.*1 → d = (λ k, (k, vals k (pairs_of d))) <$> d.*1.
Proof.
  intros Hnd. rewrite <- list_fmap_compose. symmetry. apply fmap_id_elem.
  intros [k vs] Hin. simpl. by rewrite (dict_vals d k vs).
Qed.

Lemma group_canonical l :
  group l = (λ k, (k, vals k l)) <$> first_occurrences l.*1.
Proof.
  rewrite (dict_canonical (group l)) by apply dict_keys_nodup, group_ok.
  rewrite group_keys. apply list_fmap_ext. intros _ k _.
  by rewrite group_vals.
Qed.

Lemma NoDup_first_occurrences (ks : list K') : NoDup (first_occurrences ks).
Proof.
  induction ks as [|k ks IH] using rev_ind; [apply NoDup_nil_2|].
  rewrite first_occurrences_snoc. case_decide; [done|].
  apply NoDup_app. split_and!; [done| |apply NoDup_singleton].
  by intros x Hx ->%list_elem_of_singleton.
Qed.

Lemma elem_of_first_occurrences (ks : list K') k :
  k ∈ first_occurrences ks ↔ k ∈ ks.
Proof.
  induction ks as [|k' ks IH] using rev_ind; [done|].
  rewrite first_occurrences_snoc, elem_of_app, list_elem_of_singleton, <- IH.
  case_decide as Hin.
  - split; [by left|]. intros [?| ->]; done.
  - by rewrite elem_of_app, list_elem_of_singleton.
Qed.

End GroupFacts.

Section EngineExtras.
Context {K V K' V' R : Type} `{EqDecision K'}.
Implicit Types (self : MapReduceFramework K V K' V' R).
Implicit Types (mapper : Mapper K V K' V') (reducer : Reducer K' V' R).
Implicit Types (input_data : list (K * V)).

Lemma foldl_results_append (rs items : list R) :
  foldl (λ a x, results_append x a) rs items = rs ++ items.
Proof. apply (foldl_put items rs). Qed.

(** X1.  For an order-insensitive reducer and callbacks that never raise
    [queue.Empty], two runs on the same input return the same results up
    to their order, whatever the pool sizes (at least one worker in each
    pool) and whatever the schedules; and both runs return. *)
Theorem commutative_reducer_determinism sm1 sr1 sm2 sr2 self1 self2
    input_data mapper reducer :
  1 ≤ num_mappers self1 → 1 ≤ num_reducers self1 →
  1 ≤ num_mappers self2 → 1 ≤ num_reducers self2 →
  never_empty (map_call mapper) input_data →
  (∀ k vs, ending_of (reducer k vs) ≠ RaisesEmpty) →
  order_insensitive reducer →
  (∃ N, ∀ fuel, (N ≤ fuel)%nat →
     is_Some (run fuel sm1 sr1 self1 input_data mapper reducer)
     ∧ is_Some (run fuel sm2 sr2 self2 input_data mapper reducer))
  ∧ (∀ fuel1 fuel2 self1' res1 self2' res2,
       run fuel1 sm1 sr1 self1 input_data mapper reducer
         = Some (self1', res1) →
       run fuel2 sm2 sr2 self2 input_data mapper reducer
         = Some (self2', res2) →
       res1 ≡ₚ res2).
Proof.
  intros ? ? ? ? Hm Hr Hins. split.
  - destruct (run_returns sm1 sr1 self1 input_data mapper reducer) as [N1 Hr1].
    destruct (run_returns sm2 sr2 self2 input_data mapper reducer) as [N2 Hr2].
    exists (N1 `max` N2)%nat. intros fuel Hfuel.
    split; [apply Hr1|apply Hr2]; lia.
  - intros fuel1 fuel2 self1' res1 self2' res2 Hrun1 Hrun2.
    by eapply (run_deterministic fuel1 fuel2 sm1 sr1 sm2 sr2 self1 self2).
Qed.

(** X2.  With at least one worker in each pool, callbacks that never
    raise [queue.Empty] and an order-insensitive reducer, what [run]
    returns is, up to order, one reduction for each distinct key the mapper
    yielded, over all the values yielded for that key. *)
Theorem run_is_grouped_reduction sm sr self input_data mapper reducer :
  1 ≤ num_mappers self → 1 ≤ num_reducers self →
  never_empty (map_call mapper) input_data →
  (∀ k vs, ending_of (reducer k vs) ≠ RaisesEmpty) →
  order_insensitive reducer →
  (∃ N, ∀ fuel, (N ≤ fuel)%nat →
     is_Some (run fuel sm sr self input_data mapper reducer))
  ∧ (∀ fuel self' res,
       run fuel sm sr self input_data mapper reducer = Some (self', res) →
       res ≡ₚ reduce_groups reducer (mapped mapper input_data)).
Proof.
  intros Hnm Hnr Hm Hr Hins. split; [apply run_returns|].
  intros fuel self' res Hrun. by eapply run_groups.
Qed.

Lemma app_perm_submseteq {X : Type} (l1 l2 l : list X) :
  l1 ++ l2 ≡ₚ l → l1 ⊆+ l.
Proof. intros <-. by apply submseteq_inserts_r. Qed.

(** X3.  Whatever the pool sizes, the schedules and the callbacks, a run
    invents nothing and does nothing twice: the keys of the shuffle table
    are distinct and none has an empty list, the pairs of the table are
    among the pairs the mapper yields on the input, each counted at most
    as often as it is yielded, and the results are among what the reducer
    yields on the entries of the table, in the same sense. *)
Theorem run_invents_nothing sm sr self input_data mapper reducer :
  (∃ N, ∀ fuel, (N ≤ fuel)%nat →
     is_Some (run fuel sm sr self input_data mapper reducer))
  ∧ (∀ fuel self' res,
       run fuel sm sr self input_data mapper reducer = Some (self', res) →
       dict_ok (shuffle_dict self')
       ∧ pairs_of (shuffle_dict self') ⊆+ mapped mapper input_data
       ∧ res ⊆+ reduced reducer (shuffle_dict self')).
Proof.
  split; [apply run_returns|].
  intros fuel self' res (_ & _ & _ & Hok & Hp & Hres & _)%run_spec.
  split_and!; [done| |]; by eapply app_perm_submseteq.
Qed.

(** X4.  Error containment in the reduce phase: with at least one reducer
    thread, when no reducer invocation of the run raises [queue.Empty],
    every reduce task is taken from the reduce queue, whatever errors the
    reducer raises, and the results are exactly what the invocations
    yielded, up to order, those yielded before a failure included. *)
Theorem reduce_error_contained sm sr self input_data mapper reducer :
  1 ≤ num_reducers self →
  (∃ N, ∀ fuel, (N ≤ fuel)%nat →
     is_Some (run fuel sm sr self input_data mapper reducer))
  ∧ (∀ fuel self' res,
       run fuel sm sr self input_data mapper reducer = Some (self', res) →
       never_empty (reduce_call reducer) (shuffle_dict self') →
       reduce_queue self' = []
       ∧ res ≡ₚ reduced reducer (shuffle_dict self')
       ∧ (∀ task r, task ∈ shuffle_dict self' →
                    r ∈ yields (reduce_call reducer task) → r ∈ res)).
Proof.
  intros Hnr. split; [apply run_returns|].
  intros fuel self' res (_ & _ & _ & _ & _ & Hres & _ & Hrq)%run_spec Hne.
  assert (reduce_queue self' = []) as Hnil
    by (apply Hrq; rewrite never_empty_empties by done; lia).
  rewrite Hnil in Hres. unfold reduced in Hres at 1. simpl in Hres.
  rewrite app_nil_r in Hres. split_and!; try done.
  intros task r Htask Hr. rewrite Hres. apply list_elem_of_bind.
  by exists task.
Qed.

(** X5.  A mapper pool survives invocations that raise [queue.Empty] as
    long as it has more threads than there are such invocations: each one
    ends one thread, the others empty the map queue, and the shuffle table
    holds every pair the mapper yields on the input. *)
Theorem pool_outlives_queue_empty sm sr self input_data mapper reducer :
  (empties (map_call mapper) input_data < Z.to_nat (num_mappers self))%nat →
  (∃ N, ∀ fuel, (N ≤ fuel)%nat →
     is_Some (run fuel sm sr self input_data mapper reducer))
  ∧ (∀ fuel self' res,
       run fuel sm sr self input_data mapper reducer = Some (self', res) →
       map_queue self' = []
       ∧ pairs_of (shuffle_dict self') ≡ₚ mapped mapper input_data).
Proof.
  intros Hfew. split; [apply run_returns|].
  intros fuel self' res (_ & _ & _ & _ & Hp & _ & Hmq & _)%run_spec.
  rewrite (Hmq Hfew) in Hp. unfold mapped in Hp at 1. simpl in Hp.
  rewrite app_nil_r in Hp. by rewrite (Hmq Hfew).
Qed.

(** X6.  With one mapper thread and one reducer thread, and callbacks that
    never raise [queue.Empty], [run] is the sequential computation: the
    shuffle table is built from the mapped pairs in input order, and the
    result lists, for each key in the order in which the keys first occur
    in the mapper's output, what the reducer yields on the values of that
    key in the order in which they were yielded. *)
Theorem single_thread_run_is_sequential sm sr self input_data mapper
    reducer :
  num_mappers self = 1 → num_reducers self = 1 →
  never_empty (map_call mapper) input_data →
  (∀ k vs, ending_of (reducer k vs) ≠ RaisesEmpty) →
  (∃ N, ∀ fuel, (N ≤ fuel)%nat →
     is_Some (run fuel sm sr self input_data mapper reducer))
  ∧ (∀ fuel self' res,
       run fuel sm sr self input_data mapper reducer = Some (self', res) →
       shuffle_dict self' = group (mapped mapper input_data)
       ∧ res = first_occurrences (mapped mapper input_data).*1
                 ≫= λ k, yields (reducer k (vals k (mapped mapper input_data)))).
Proof.
  intros Hnm Hnr Hm Hr. split; [apply run_returns|].
  intros fuel self' res (self1 & Hmap & Hred & ->)%run_unfold.
  unfold map_phase in Hmap. simpl in Hmap. rewrite Hnm, foldl_put in Hmap.
  destruct (exec_pool (map_call mapper) _ _ _ _ _) as [p1|] eqn:H1; [|done].
  simpl in Hmap. injection Hmap as <-.
  apply exec_pool_sequential in H1 as [Hq1 Ha1]; [|done].
  unfold reduce_phase, _shuffle in Hred. simpl in Hred.
  rewrite Hnr, foldl_put in Hred. simpl in Hred.
  destruct (exec_pool (reduce_call reducer) _ _ _ _ _) as [p2|] eqn:H2;
    [|done].
  simpl in Hred. injection Hred as <-. simpl.
  apply exec_pool_sequential in H2 as [Hq2 Ha2];
    [|by apply Forall_forall; intros [k vs] _; apply Hr].
  rewrite Ha2, Ha1, foldl_results_append. simpl. split; [done|].
  change (foldl (λ a x, shuffle_put x a) [] (queued (map_call mapper) input_data))
    with (group (mapped mapper input_data)).
  rewrite group_canonical. unfold queued, reduce_call, dict_items.
  by rewrite list_fmap_bind.
Qed.

End EngineExtras.


(** * The counting job on arbitrary records *)

Section FlightCounts.
Context {K val : Type} `{EqDecision val}.
Implicit Types (self : MapReduceFramework K (gmap string val) val Z (val * Z)).
Implicit Types (input_data : list (K * gmap string val)).
Implicit Types (records : list (gmap string val)).

Lemma count_mapper_never_empty input_data :
  never_empty (map_call (PassengerFlightCountMapper (K := K) (val := val)))
    input_data.
Proof.
  apply Forall_forall. intros [k record] _.
  unfold map_call, PassengerFlightCountMapper. simpl.
  by destruct (record !! "passenger_id").
Qed.

Lemma sum_replicate_ones (n : nat) : sum (replicate n 1) = Z.of_nat n.
Proof.
  induction n as [|n IH]; [done|]. rewrite replicate_S, sum_cons, IH. lia.
Qed.

Lemma vals_mapped_counts (p : val) input_data :
  vals p (mapped PassengerFlightCountMapper input_data)
  = replicate (flights_of p input_data.*2) 1.
Proof.
  unfold mapped, flights_of.
  induction input_data as [|[k record] ts IH]; [done|].
  rewrite bind_cons, vals_app, IH, fmap_cons.
  unfold map_call, PassengerFlightCountMapper. simpl.
  destruct (record !! "passenger_id") as [q|] eqn:Hq; simpl.
  - destruct (decide (q = p)) as [->|Hne].
    + rewrite filter_cons_True by done.
      by rewrite (vals_of_group p p [1]), decide_True.
    + rewrite filter_cons_False by congruence.
      by rewrite (vals_of_group p q [1]), decide_False.
  - by rewrite filter_cons_False by congruence.
Qed.

Lemma key_mapped_counts (p : val) input_data :
  p ∈ (mapped PassengerFlightCountMapper input_data).*1
  ↔ (0 < flights_of p input_data.*2)%nat.
Proof.
  split.
  - intros Hin. destruct (flights_of p input_data.*2) eqn:Hn; [|lia].
    exfalso. apply list_elem_of_fmap in Hin as ([q v] & -> & Hin).
    assert (v ∈ vals q (mapped PassengerFlightCountMapper input_data)) as Hv.
    { unfold vals. apply list_elem_of_fmap. exists (q, v). split; [done|].
      by apply list_elem_of_filter. }
    rewrite vals_mapped_counts in Hv. simpl in Hn. rewrite Hn in Hv.
    by apply elem_of_nil in Hv.
  - intros Hpos. destruct (decide (p ∈ (mapped PassengerFlightCountMapper
                                          input_data).*1)) as [|Hnot]; [done|].
    apply (vals_absent (V' := Z)) in Hnot.
    rewrite vals_mapped_counts in Hnot.
    destruct (flights_of p input_data.*2); [lia|done].
Qed.

Lemma count_groups_keys (l : list (val * Z)) :
  (reduce_groups PassengerFlightCountReducer l).*1 = remove_dups l.*1.
Proof.
  unfold reduce_groups. induction (remove_dups l.*1) as [|k ks IH]; [done|].
  rewrite bind_cons, fmap_app, IH. done.
Qed.

Lemma elem_of_count_groups (l : list (val * Z)) (p : val) (n : Z) :
  (p, n) ∈ reduce_groups PassengerFlightCountReducer l
  ↔ p ∈ l.*1 ∧ n = sum (vals p l).
Proof.
  unfold reduce_groups. rewrite list_elem_of_bind. split.
  - intros (k & Hin & Hk). unfold PassengerFlightCountReducer in Hin.
    simpl in Hin. apply list_elem_of_singleton in Hin as [= -> ->].
    split; [by rewrite elem_of_remove_dups in Hk|done].
  - intros [Hp ->]. exists p. split; [simpl; left|].
    by rewrite elem_of_remove_dups.
Qed.

Lemma sum_mapped_counts input_data :
  sum (mapped PassengerFlightCountMapper input_data).*2
  = Z.of_nat (length (filter (λ record, is_Some (record !! "passenger_id"))
                        input_data.*2)).
Proof.
  unfold mapped. induction input_data as [|[k record] ts IH]; [done|].
  rewrite bind_cons, fmap_app, sum_app, IH, fmap_cons.
  unfold map_call, PassengerFlightCountMapper. simpl.
  destruct (record !! "passenger_id") as [q|] eqn:Hq; simpl.
  - rewrite filter_cons_True by (by rewrite Hq).
    rewrite sum_cons. unfold sum at 1. simpl. lia.
  - rewrite filter_cons_False; [done|]. rewrite Hq. by intros [? ?].
Qed.

Lemma flight_counts_of_run sm sr self input_data :
  1 ≤ num_mappers self → 1 ≤ num_reducers self →
  ∀ fuel self' res,
    run fuel sm sr self input_data
        PassengerFlightCountMapper PassengerFlightCountReducer
      = Some (self', res) →
    NoDup res.*1
    ∧ (∀ p n, (p, n) ∈ res
              ↔ n = Z.of_nat (flights_of p input_data.*2) ∧ 0 < n)
    ∧ sum res.*2
      = Z.of_nat (length (filter
                            (λ record, is_Some (record !! "passenger_id"))
                            input_data.*2)).
Proof.
  intros Hnm Hnr fuel self' res Hrun.
  pose proof Hrun as Hgroups.
  eapply (run_groups _ _ _ _ _ _ _ _ _
            (mapped PassengerFlightCountMapper input_data)) in Hgroups;
    [|done|done|apply count_mapper_never_empty|done
     |apply count_reducer_insensitive|done].
  split_and!.
  - rewrite Hgroups, count_groups_keys. apply NoDup_remove_dups.
  - intros p n. rewrite Hgroups, elem_of_count_groups, key_mapped_counts.
    rewrite vals_mapped_counts, sum_replicate_ones. split.
    + intros [Hpos ->]. split; [done|lia].
    + intros [-> Hpos]. split; [lia|done].
  - apply run_complete in Hrun as (Hok & Hp & ->); try done.
    + by rewrite reduced_counts, Hp, sum_mapped_counts.
    + apply count_mapper_never_empty.
    + by apply Forall_forall.
Qed.

(** X7.  The counting job on an engine with at least one mapper and one
    reducer thread, whatever the records: [run] returns under every
    schedule; the records without a [passenger_id] are dropped (their
    mapper invocation fails); the result holds one pair for each passenger
    identifier that occurs, with the number of records that carry it, and
    nothing else; the counts add up to the number of records that carry an
    identifier. *)
Theorem passenger_flight_counts sm sr self input_data :
  1 ≤ num_mappers self → 1 ≤ num_reducers self →
  (∃ N, ∀ fuel, (N ≤ fuel)%nat →
     is_Some (run fuel sm sr self input_data
                PassengerFlightCountMapper PassengerFlightCountReducer))
  ∧ (∀ fuel self' res,
       run fuel sm sr self input_data
           PassengerFlightCountMapper PassengerFlightCountReducer
         = Some (self', res) →
       NoDup res.*1
       ∧ (∀ p n, (p, n) ∈ res
                 ↔ n = Z.of_nat (flights_of p input_data.*2) ∧ 0 < n)
       ∧ sum res.*2
         = Z.of_nat (length (filter
                               (λ record, is_Some (record !! "passenger_id"))
                               input_data.*2))).
Proof.
  intros Hnm Hnr. split; [apply run_returns|].
  by apply flight_counts_of_run.
Qed.

Lemma prepare_input_data_records records :
  (prepare_input_data records).*2 = records.
Proof.
  unfold prepare_input_data.
  assert (∀ (f : nat → Z), (imap (λ i record, (f i, record)) records).*2
                           = records) as Himap; [|apply Himap].
  induction records as [|r rs IH]; intros f; [done|].
  rewrite imap_cons, fmap_cons. simpl. f_equal. apply (IH (f ∘ S)).
Qed.

End FlightCounts.

Section Pipeline.
Context {val : Type} `{EqDecision val}.
Implicit Types (self : MapReduceFramework Z (gmap string val) val Z (val * Z)).
Implicit Types (records : list (gmap string val)).

(** X8.  [prepare_input_data] pairs the records with their positions
    [0, 1, ...] and keeps them in order; the counting job run on what it
    returns gives each passenger identifier the number of records of the
    list that carry it. *)
Theorem prepared_input_counts sm sr self records :
  1 ≤ num_mappers self → 1 ≤ num_reducers self →
  (prepare_input_data records).*2 = records
  ∧ (prepare_input_data records).*1
    = Z.of_nat <$> seq 0 (length records)
  ∧ (∃ N, ∀ fuel, (N ≤ fuel)%nat →
       is_Some (run fuel sm sr self (prepare_input_data records)
                  PassengerFlightCountMapper PassengerFlightCountReducer))
  ∧ (∀ fuel self' res,
       run fuel sm sr self (prepare_input_data records)
           PassengerFlightCountMapper PassengerFlightCountReducer
         = Some (self', res) →
       ∀ p n, (p, n) ∈ res ↔ n = Z.of_nat (flights_of p records) ∧ 0 < n).
Proof.
  intros Hnm Hnr. split_and!.
  - apply prepare_input_data_records.
  - unfold prepare_input_data.
    assert (∀ (j : nat),
              (imap (λ i (record : gmap string val), (Z.of_nat (j + i), record))
                 records).*1
              = Z.of_nat <$> seq j (length records)) as Himap.
    { induction records as [|r rs IH]; intros j; [done|].
      rewrite imap_cons, fmap_cons. simpl. rewrite Nat.add_0_r. f_equal.
      rewrite <- IH. f_equal. apply imap_ext. intros i x _. simpl.
      by rewrite Nat.add_succ_r. }
    apply (Himap 0%nat).
  - apply run_returns.
  - intros fuel self' res Hrun p n.
    destruct (flight_counts_of_run sm sr self (prepare_input_data records)
                Hnm Hnr fuel self' res Hrun) as (_ & Hcount & _).
    by rewrite Hcount, prepare_input_data_records.
Qed.

End Pipeline.


(** * The printed ranking *)

Section Ranking.
Context {P : Type}.
Implicit Types (x y : P * Z) (l results shown hidden : list (P * Z)).

Definition by_count : relation (P * Z) := λ x y, y.2 ≤ x.2.

Lemma insert_by_count_perm x l : insert_by_count x l ≡ₚ x :: l.
Proof.
  induction l as [|y l IH]; [done|]. simpl. case_decide; [done|].
  rewrite IH. apply perm_swap.
Qed.

Lemma sorted_by_count_perm results : sorted_by_count results ≡ₚ results.
Proof.
  induction results as [|x l IH]; [done|]. simpl.
  by rewrite insert_by_count_perm, IH.
Qed.

Lemma insert_by_count_sorted x l :
  StronglySorted by_count l → StronglySorted by_count (insert_by_count x l).
Proof.
  induction 1 as [|y l Hl IH Hy]; simpl.
  - by repeat constructor.
  - case_decide as Hle.
    + constructor; [by constructor|]. constructor; [done|].
      eapply Forall_impl; [exact Hy|]. unfold by_count. intros z ?. lia.
    + constructor; [done|]. rewrite insert_by_count_perm.
      constructor; [|done]. unfold by_count. lia.
Qed.

Lemma sorted_by_count_sorted results :
  StronglySorted by_count (sorted_by_count results).
Proof.
  induction results as [|x l IH]; [constructor|]. simpl.
  by apply insert_by_count_sorted.
Qed.

Lemma insert_by_count_stable (c : Z) x l :
  filter (λ y, y.2 = c) (insert_by_count x l) = filter (λ y, y.2 = c) (x :: l).
Proof.
  induction l as [|y l IH]; [done|]. simpl. case_decide as Hle; [done|].
  rewrite (filter_cons _ y), IH, !(filter_cons _ x), (filter_cons _ y).
  repeat case_decide; try done. lia.
Qed.

Lemma sorted_by_count_stable (c : Z) results :
  filter (λ y, y.2 = c) (sorted_by_count results)
  = filter (λ y, y.2 = c) results.
Proof.
  induction results as [|x l IH]; [done|]. simpl.
  by rewrite insert_by_count_stable, !(filter_cons _ x), IH.
Qed.

Lemma rows_of_rows (f : nat → Z) l :
  rows_of (imap (λ i x, Row (f i) x.1 x.2) l)
  = imap (λ i x, (f i, x.1, x.2)) l.
Proof.
  unfold rows_of. revert f. induction l as [|x l IH]; intros f; [done|].
  rewrite !imap_cons. simpl. f_equal. apply (IH (f ∘ S)).
Qed.

Lemma rows_of_print_results results (top_n : Z) :
  rows_of (print_results "Most Frequent Flyers" results top_n)
  = imap (λ i x, (Z.of_nat i + 1, x.1, x.2))
      (slice_to top_n (sorted_by_count results)).
Proof.
  unfold print_results. rewrite decide_True by done.
  unfold rows_of. simpl. rewrite omap_app.
  rewrite <- (rows_of_rows (λ i, Z.of_nat i + 1)). unfold rows_of.
  rewrite <- (app_nil_r (omap _ (imap _ _))) at 2. f_equal.
  by case_decide.
Qed.

(** X9.  For the job ["Most Frequent Flyers"] and a non-negative [top_n],
    [print_results] prints one row for each of the first [top_n] results of
    the ranking (all of them when there are fewer), numbered from 1.  The
    ranking holds the results once each; the rows are in order of
    decreasing flight count; no result left out has a larger count than a
    result shown; results with equal counts stay in the order of the
    result list; and the line with the total number of passengers is
    printed exactly when some result is left out. *)
Theorem ranking_shows_top_flyers results (top_n : Z) :
  0 ≤ top_n →
  ∃ shown hidden,
    rows_of (print_results "Most Frequent Flyers" results top_n)
      = imap (λ i x, (Z.of_nat i + 1, x.1, x.2)) shown
    ∧ shown ++ hidden ≡ₚ results
    ∧ length shown = (Z.to_nat top_n `min` length results)%nat
    ∧ StronglySorted by_count shown
    ∧ (∀ x y, x ∈ shown → y ∈ hidden → y.2 ≤ x.2)
    ∧ (∀ c, filter (λ y, y.2 = c) (shown ++ hidden)
            = filter (λ y, y.2 = c) results)
    ∧ (TotalPassengers (Z.of_nat (length results))
         ∈ print_results "Most Frequent Flyers" results top_n
       ↔ hidden ≠ []).
Proof.
  intros Htop.
  exists (take (Z.to_nat top_n) (sorted_by_count results)),
         (drop (Z.to_nat top_n) (sorted_by_count results)).
  pose proof (sorted_by_count_sorted results) as Hsorted.
  pose proof (sorted_by_count_perm results) as Hperm.
  rewrite <- (take_drop (Z.to_nat top_n) (sorted_by_count results)) in Hsorted.
  split_and!.
  - rewrite rows_of_print_results. unfold slice_to. by rewrite decide_True.
  - by rewrite take_drop.
  - by rewrite length_take, (Permutation_length Hperm).
  - by eapply StronglySorted_app_1_l.
  - intros x y Hx Hy.
    by apply (StronglySorted_app_1_elem_of by_count _ _ x y Hsorted).
  - intros c. by rewrite take_drop, sorted_by_count_stable.
  - unfold print_results. rewrite decide_True by done.
    assert (length (drop (Z.to_nat top_n) (sorted_by_count results))
            = (length results - Z.to_nat top_n)%nat) as Hlen
      by (by rewrite length_drop, (Permutation_length Hperm)).
    split.
    + intros Hin Hnil. rewrite Hnil in Hlen. simpl in Hlen.
      case_decide as Hlt; [lia|].
      rewrite app_nil_r in Hin.
      apply elem_of_cons in Hin as [?|Hin]; [done|].
      apply elem_of_app in Hin as [Hin|Hin].
      * repeat (apply elem_of_cons in Hin as [?|Hin]; [done|]).
        by apply elem_of_nil in Hin.
      * apply elem_of_lookup_imap in Hin as (i & x & ? & _). done.
    + intros Hne. rewrite decide_True.
      * right. rewrite !elem_of_app. right. right. left.
      * destruct (drop _ _) eqn:Hd; [done|]. simpl in Hlen. lia.
Qed.

(** X10.  A negative [top_n] does not empty the ranking: the slice
    [sorted_results[:top_n]] leaves out the last [-top_n] results of the
    ranking and [print_results] prints a row for each of the others; the
    line with the total number of passengers is always printed. *)
Theorem negative_top_n_drops_last_rows results (top_n : Z) :
  top_n < 0 →
  ∃ shown hidden,
    rows_of (print_results "Most Frequent Flyers" results top_n)
      = imap (λ i x, (Z.of_nat i + 1, x.1, x.2)) shown
    ∧ shown ++ hidden = sorted_by_count results
    ∧ length hidden = (Z.to_nat (- top_n) `min` length results)%nat
    ∧ TotalPassengers (Z.of_nat (length results))
        ∈ print_results "Most Frequent Flyers" results top_n.
Proof.
  intros Htop.
  pose proof (sorted_by_count_perm results) as Hperm.
  set (n := (length (sorted_by_count results) - Z.to_nat (- top_n))%nat).
  exists (take n (sorted_by_count results)), (drop n (sorted_by_count results)).
  split_and!.
  - rewrite rows_of_print_results. unfold slice_to.
    by rewrite decide_False by lia.
  - apply take_drop.
  - rewrite length_drop. unfold n. rewrite (Permutation_length Hperm). lia.
  - unfold print_results. rewrite decide_True by done.
    rewrite (decide_True (P := top_n < _)) by lia.
    right. rewrite !elem_of_app. right. right. left.
Qed.

End Ranking.

(** * The parsers: what they return *)

Section AirportParse.
Implicit Types (rows : list (list string)) (airports : gmap string airport).

Lemma parse_row_line airports (i j : nat) (row : list string) :
  parse_row airports i row = parse_row airports j row.
Proof. reflexivity. Qed.

Lemma parse_fold rows :
  parse rows = foldl (λ airports row, parse_row airports 0 row) ∅ rows.
Proof.
  unfold parse. generalize (∅ : gmap string airport). generalize 0%nat at 1.
  induction rows as [|row rows IH]; intros i airports; [done|].
  simpl. rewrite IH. f_equal.
Qed.

Lemma parse_snoc rows (row : list string) :
  parse (rows ++ [row]) = parse_row (parse rows) 0 row.
Proof. by rewrite !parse_fold, foldl_app. Qed.

Lemma Qlt_bool_false (x y : Q) : Qlt_bool x y = false ↔ (y <= x)%Q.
Proof.
  unfold Qlt_bool. rewrite negb_false_iff. apply Qle_bool_iff.
Qed.

(** The rows that [_validate_airport_record] accepts. *)
Lemma validate_airport_accepts (line_num : nat)
    (name code latitude longitude : string) :
  _validate_airport_record line_num name code latitude longitude = true ↔
  re_match AIRPORT_NAME_PATTERN name = true
  ∧ re_match AIRPORT_CODE_PATTERN code = true
  ∧ re_match COORDINATE_PATTERN latitude = true
  ∧ re_match COORDINATE_PATTERN longitude = true
  ∧ ∃ lat_float, float latitude = Some lat_float
                 ∧ (inject_Z (-90) <= lat_float)%Q
                 ∧ (lat_float <= inject_Z 90)%Q.
Proof.
  split.
  - unfold _validate_airport_record.
    destruct (re_match AIRPORT_NAME_PATTERN name); [|done].
    destruct (re_match AIRPORT_CODE_PATTERN code); [|done].
    destruct (re_match COORDINATE_PATTERN latitude); [|done].
    destruct (re_match COORDINATE_PATTERN longitude); [|done].
    cbn [negb]. destruct (float latitude) as [lat_float|]; [|done].
    destruct (Qlt_bool lat_float (inject_Z (-90))) eqn:Hlo; [done|].
    destruct (Qlt_bool (inject_Z 90) lat_float) eqn:Hhi; [done|].
    intros _. split_and!; try done. exists lat_float.
    apply Qlt_bool_false in Hlo. apply Qlt_bool_false in Hhi. done.
  - intros (Hname & Hcode & Hlat & Hlon & lat_float & Hfloat & Hlo & Hhi).
    destruct (coordinate_float longitude Hlon) as [lon_float Hlonf].
    unfold _validate_airport_record.
    rewrite Hname, Hcode, Hlat, Hlon, Hfloat, Hlonf. cbn [negb].
    rewrite (proj2 (Qlt_bool_false _ _) Hlo), (proj2 (Qlt_bool_false _ _) Hhi).
    cbn [orb].
    rewrite (proj2 (Qlt_bool_false lat_float (inject_Z (-180)))),
      (proj2 (Qlt_bool_false (inject_Z 180) lat_float)); [done| |].
    + eapply Qle_trans; [exact Hhi|]. done.
    + eapply Qle_trans; [|exact Hlo]. done.
Qed.

End AirportParse.

Section AirportParseProperties.
Implicit Types (rows : list (list string)) (airports : gmap string airport).

Lemma parse_row_cases airports (row : list string) :
  parse_row airports 0 row = airports
  ∨ ∃ nm c lat_s lon_s lat_float lon_float,
      row = [nm; c; lat_s; lon_s]
      ∧ _validate_airport_record 1 nm c lat_s lon_s = true
      ∧ float lat_s = Some lat_float ∧ float lon_s = Some lon_float
      ∧ parse_row airports 0 row
        = <[c := {| name := nm; code := c; latitude := lat_float;
                    longitude := lon_float |}]> airports.
Proof.
  destruct row as [|nm [|c [|lat_s [|lon_s [|? ?]]]]]; try by left.
  unfold parse_row. simpl.
  destruct (_validate_airport_record 1 nm c lat_s lon_s) eqn:Hv; [|by left].
  simpl. destruct (float lat_s) as [lat_float|] eqn:Hlat; [|by left].
  destruct (float lon_s) as [lon_float|] eqn:Hlon; [|by left].
  right. by exists nm, c, lat_s, lon_s, lat_float, lon_float.
Qed.

(** X11.  Every airport that [AirportDataParser.parse] returns comes from a
    row of four fields of the file: it is stored under its own code, its
    name and code match their patterns, its coordinates are the values of
    the two coordinate fields, and its latitude lies within [-90, 90]. *)
Theorem parsed_airports_valid rows (c : string) (a : airport) :
  parse rows !! c = Some a →
  ∃ lat_s lon_s,
    [name a; c; lat_s; lon_s] ∈ rows
    ∧ code a = c
    ∧ re_match AIRPORT_NAME_PATTERN (name a) = true
    ∧ re_match AIRPORT_CODE_PATTERN c = true
    ∧ float lat_s = Some (latitude a)
    ∧ float lon_s = Some (longitude a)
    ∧ (inject_Z (-90) <= latitude a)%Q ∧ (latitude a <= inject_Z 90)%Q.
Proof.
  revert a. induction rows as [|row rows IH] using rev_ind; intros a.
  - rewrite parse_fold. simpl. by rewrite lookup_empty.
  - rewrite parse_snoc.
    assert (parse rows !! c = Some a →
            ∃ lat_s lon_s,
              [name a; c; lat_s; lon_s] ∈ rows ++ [row]
              ∧ code a = c
              ∧ re_match AIRPORT_NAME_PATTERN (name a) = true
              ∧ re_match AIRPORT_CODE_PATTERN c = true
              ∧ float lat_s = Some (latitude a)
              ∧ float lon_s = Some (longitude a)
              ∧ (inject_Z (-90) <= latitude a)%Q
              ∧ (latitude a <= inject_Z 90)%Q) as Hold.
    { intros (lat_s & lon_s & Hin & Hrest)%IH. exists lat_s, lon_s.
      split; [|done]. apply elem_of_app. by left. }
    destruct (parse_row_cases (parse rows) row)
      as [->|(nm & c' & lat_s & lon_s & lat_float & lon_float
              & -> & Hv & Hlat & Hlon & ->)]; [done|].
    destruct (decide (c' = c)) as [->|Hne].
    + rewrite lookup_insert_eq. intros [= <-]. simpl.
      apply validate_airport_accepts
        in Hv as (Hnm & Hc & _ & _ & lat' & Hlat' & Hlo & Hhi).
      rewrite Hlat in Hlat'. injection Hlat' as <-.
      exists lat_s, lon_s. split_and!; try done.
      apply elem_of_app. right. left.
    + by rewrite lookup_insert_ne.
Qed.

(** X12.  A row that does not have four fields, or that
    [_validate_airport_record] rejects, changes nothing: the parse of the
    file is the parse of the file without that row. *)
Theorem invalid_airport_row_ignored rows1 rows2 (row : list string) :
  match row with
  | [nm; c; lat_s; lon_s] =>
      _validate_airport_record 1 nm c lat_s lon_s = false
  | _ => True
  end →
  parse (rows1 ++ row :: rows2) = parse (rows1 ++ rows2).
Proof.
  intros Hrow. rewrite !parse_fold, !foldl_app. simpl. f_equal.
  destruct row as [|nm [|c [|lat_s [|lon_s [|? ?]]]]]; try done.
  unfold parse_row. simpl. by rewrite Hrow.
Qed.

Lemma later_rows_keep rows airports (c : string) :
  (∀ nm lat_s lon_s, [nm; c; lat_s; lon_s] ∉ rows) →
  foldl (λ airports row, parse_row airports 0 row) airports rows !! c
  = airports !! c.
Proof.
  revert airports. induction rows as [|row rows IH]; intros airports Hc;
    [done|].
  simpl. rewrite IH.
  - destruct (parse_row_cases airports row)
      as [->|(nm & c' & lat_s & lon_s & lat_float & lon_float
              & -> & _ & _ & _ & ->)]; [done|].
    apply lookup_insert_ne. intros ->. apply (Hc nm lat_s lon_s). left.
  - intros nm lat_s lon_s Hin. apply (Hc nm lat_s lon_s). by right.
Qed.

(** X13.  The last valid row of a code wins: the airport returned for a
    code is the one of a valid row of that code whenever no later row
    carries the code, whatever rows, of that code or not, come before. *)
Theorem last_airport_row_wins rows1 rows2 (nm c lat_s lon_s : string) :
  _validate_airport_record 1 nm c lat_s lon_s = true →
  (∀ nm' lat_s' lon_s', [nm'; c; lat_s'; lon_s'] ∉ rows2) →
  ∃ lat_float lon_float,
    float lat_s = Some lat_float ∧ float lon_s = Some lon_float
    ∧ parse (rows1 ++ [nm; c; lat_s; lon_s] :: rows2) !! c
      = Some {| name := nm; code := c; latitude := lat_float;
                longitude := lon_float |}.
Proof.
  intros Hv Hlater.
  pose proof Hv as (_ & _ & Hlat & Hlon & _)%validate_airport_accepts.
  destruct (coordinate_float lat_s Hlat) as [lat_float Hlatf].
  destruct (coordinate_float lon_s Hlon) as [lon_float Hlonf].
  exists lat_float, lon_float. split_and!; try done.
  rewrite parse_fold, foldl_app. simpl. rewrite later_rows_keep by done.
  unfold parse_row at 1. rewrite Hv, Hlatf, Hlonf. simpl.
  apply lookup_insert_eq.
Qed.

End AirportParseProperties.

Section PassengerParse.
Context {datetime : Type}.
Variable fromtimestamp : Z → option datetime.
Implicit Types (rows rest : list (list string)).
Implicit Types (records : list (gmap string (PassengerDataParser.field datetime))).

Lemma validate_passenger_accepts line_num passenger_id flight_id
    from_airport dest_airport departure_time flight_time :
  PassengerDataParser._validate_passenger_record line_num passenger_id
    flight_id from_airport dest_airport departure_time flight_time = true ↔
  re_match PassengerDataParser.PASSENGER_ID_PATTERN passenger_id = true
  ∧ re_match PassengerDataParser.FLIGHT_ID_PATTERN flight_id = true
  ∧ re_match PassengerDataParser.AIRPORT_CODE_PATTERN from_airport = true
  ∧ re_match PassengerDataParser.AIRPORT_CODE_PATTERN dest_airport = true
  ∧ ∃ departure_time_int flight_time_int,
      int departure_time = Some departure_time_int
      ∧ int flight_time = Some flight_time_int
      ∧ 0 ≤ departure_time_int
      ∧ 1 ≤ flight_time_int ≤ 9999.
Proof.
  unfold PassengerDataParser._validate_passenger_record. split.
  - intros H.
    destruct (re_match _ passenger_id); [|done].
    destruct (re_match _ flight_id); [|done].
    destruct (re_match _ from_airport); [|done].
    destruct (re_match _ dest_airport); [|done].
    cbn [negb] in H.
    destruct (int departure_time) as [t|]; [|done].
    case_decide; [done|].
    destruct (int flight_time) as [m|]; [|done].
    case_decide; [done|].
    split_and!; try done. exists t, m. split_and!; try done; lia.
  - intros (-> & -> & -> & -> & t & m & -> & -> & Hpos & Hrange).
    cbn [negb]. rewrite !decide_False by lia. done.
Qed.

(** What the loop of [parse] does with one row: it goes on without a new
    record, it goes on with one more record, or it stops. *)
Lemma passenger_row_cases (row : list string) :
  (∀ i rest records,
     PassengerDataParser.parse_rows fromtimestamp i (row :: rest) records
     = PassengerDataParser.parse_rows fromtimestamp (S i) rest records)
  ∨ ∃ p f a b dt ft t,
      row = [p; f; a; b; dt; ft]
      ∧ PassengerDataParser._validate_passenger_record 1 p f a b dt ft = true
      ∧ int dt = Some t
      ∧ ((∃ d, fromtimestamp t = Some d
               ∧ ∀ i rest records,
                   PassengerDataParser.parse_rows fromtimestamp i
                     (row :: rest) records
                   = PassengerDataParser.parse_rows fromtimestamp (S i) rest
                       (records
                        ++ [PassengerDataParser.record_of p f a b dt ft d]))
         ∨ (fromtimestamp t = None
            ∧ ∀ i rest records,
                PassengerDataParser.parse_rows fromtimestamp i
                  (row :: rest) records
                = records)).
Proof.
  destruct row as [|p [|f [|a [|b [|dt [|ft [|? ?]]]]]]]; try by left.
  destruct (PassengerDataParser._validate_passenger_record 1 p f a b dt ft)
    eqn:Hv.
  - pose proof Hv as (_ & _ & _ & _ & t & m & Ht & Hm & _)
      %validate_passenger_accepts.
    right. exists p, f, a, b, dt, ft, t. split_and!; try done.
    destruct (fromtimestamp t) as [d|] eqn:Hd.
    + left. exists d. split; [done|]. intros i rest records.
      cbn [PassengerDataParser.parse_rows].
      change (PassengerDataParser._validate_passenger_record (i + 1) p f a b
                dt ft)
        with (PassengerDataParser._validate_passenger_record 1 p f a b dt ft).
      by rewrite Hv, Ht, Hm, Hd.
    + right. split; [done|]. intros i rest records.
      cbn [PassengerDataParser.parse_rows].
      change (PassengerDataParser._validate_passenger_record (i + 1) p f a b
                dt ft)
        with (PassengerDataParser._validate_passenger_record 1 p f a b dt ft).
      by rewrite Hv, Ht, Hm, Hd.
  - left. intros i rest records. cbn [PassengerDataParser.parse_rows].
    change (PassengerDataParser._validate_passenger_record (i + 1) p f a b
              dt ft)
      with (PassengerDataParser._validate_passenger_record 1 p f a b dt ft).
    by rewrite Hv.
Qed.

(** The records read so far stay in front, and the line number only
    serves the log. *)
Lemma parse_rows_acc rows i records :
  PassengerDataParser.parse_rows fromtimestamp i rows records
  = records ++ PassengerDataParser.parse fromtimestamp rows.
Proof.
  unfold PassengerDataParser.parse.
  revert i records. induction rows as [|row rows IH]; intros i records.
  - simpl. by rewrite app_nil_r.
  - destruct (passenger_row_cases row)
      as [Hskip|(p & f & a & b & dt & ft & t & _ & _ & _
                 & [(d & _ & Hkeep)|[_ Hstop]])].
    + rewrite !Hskip. rewrite (IH 1%nat []). apply IH.
    + rewrite !Hkeep. rewrite (IH 1%nat), IH. simpl.
      by rewrite <- app_assoc.
    + rewrite !Hstop. by rewrite app_nil_r.
Qed.

Lemma parse_cons_cases (row : list string) :
  (∀ rest, PassengerDataParser.parse fromtimestamp (row :: rest)
           = PassengerDataParser.parse fromtimestamp rest)
  ∨ ∃ p f a b dt ft t,
      row = [p; f; a; b; dt; ft]
      ∧ PassengerDataParser._validate_passenger_record 1 p f a b dt ft = true
      ∧ int dt = Some t
      ∧ ((∃ d, fromtimestamp t = Some d
               ∧ ∀ rest,
                   PassengerDataParser.parse fromtimestamp (row :: rest)
                   = PassengerDataParser.record_of p f a b dt ft d
                     :: PassengerDataParser.parse fromtimestamp rest)
         ∨ (fromtimestamp t = None
            ∧ ∀ rest,
                PassengerDataParser.parse fromtimestamp (row :: rest) = [])).
Proof.
  destruct (passenger_row_cases row)
    as [Hskip|(p & f & a & b & dt & ft & t & -> & Hv & Ht
               & [(d & Hd & Hkeep)|[Hd Hstop]])].
  - left. intros rest. unfold PassengerDataParser.parse at 1.
    by rewrite Hskip, parse_rows_acc.
  - right. exists p, f, a, b, dt, ft, t. split_and!; try done.
    left. exists d. split; [done|]. intros rest.
    unfold PassengerDataParser.parse at 1.
    by rewrite Hkeep, parse_rows_acc.
  - right. exists p, f, a, b, dt, ft, t. split_and!; try done.
    right. split; [done|]. intros rest.
    unfold PassengerDataParser.parse at 1. by rewrite Hstop.
Qed.

Lemma parse_records_valid rows
    (record : gmap string (PassengerDataParser.field datetime)) :
  record ∈ PassengerDataParser.parse fromtimestamp rows →
  ∃ p f a b dt ft t d,
    [p; f; a; b; dt; ft] ∈ rows
    ∧ record = PassengerDataParser.record_of p f a b dt ft d
    ∧ PassengerDataParser._validate_passenger_record 1 p f a b dt ft = true
    ∧ int dt = Some t
    ∧ fromtimestamp t = Some d.
Proof.
  induction rows as [|row rows IH].
  - by intros ?%elem_of_nil.
  - assert (record ∈ PassengerDataParser.parse fromtimestamp rows →
            ∃ p f a b dt ft t d,
              [p; f; a; b; dt; ft] ∈ row :: rows
              ∧ record = PassengerDataParser.record_of p f a b dt ft d
              ∧ PassengerDataParser._validate_passenger_record 1 p f a b dt
                  ft = true
              ∧ int dt = Some t
              ∧ fromtimestamp t = Some d) as Hold.
    { intros (p & f & a & b & dt & ft & t & d & Hin & Hrest)%IH.
      exists p, f, a, b, dt, ft, t, d. split; [by right|done]. }
    destruct (parse_cons_cases row)
      as [Hskip|(p & f & a & b & dt & ft & t & -> & Hv & Ht
                 & [(d & Hd & Hkeep)|[Hd Hstop]])].
    + by rewrite Hskip.
    + rewrite Hkeep. intros [->|Hin]%elem_of_cons; [|by apply Hold].
      exists p, f, a, b, dt, ft, t, d. split_and!; try done. left.
    + rewrite Hstop. by intros ?%elem_of_nil.
Qed.




End PassengerParse.

(** * From the file to the counts *)

Section EndToEnd.
Context {datetime : Type} `{EqDecision datetime}.
Variable fromtimestamp : Z → option datetime.
Implicit Types
  (self : MapReduceFramework Z (gmap string (PassengerDataParser.field datetime))
            (PassengerDataParser.field datetime) Z
            (PassengerDataParser.field datetime * Z)).

Lemma filter_all {X : Type} (P : X → Prop) `{∀ x, Decision (P x)}
    (l : list X) :
  Forall P l → filter P l = l.
Proof.
  induction 1 as [|x l Hx _ IH]; [done|].
  by rewrite filter_cons_True, IH.
Qed.

Lemma filter_nonempty {X : Type} (P : X → Prop) `{∀ x, Decision (P x)}
    (l : list X) :
  (0 < length (filter P l))%nat → ∃ x, x ∈ l ∧ P x.
Proof.
  destruct (filter P l) as [|x l'] eqn:Hf; simpl; [lia|]. intros _.
  assert (x ∈ filter P l) as [HP Hin]%list_elem_of_filter
    by (rewrite Hf; left).
  by exists x.
Qed.

(** X17.  The path of [main] for the job [frequent]: the records read by
    [PassengerDataParser.parse], numbered by [prepare_input_data] and
    counted by the counting job.  The job returns, its counts add up to
    the number of records read, and every result is a passenger
    identifier that matches [PASSENGER_ID_PATTERN] with the number, at
    least one, of the records read that carry it. *)
Theorem parsed_file_counts sm sr self (rows : list (list string)) :
  1 ≤ num_mappers self → 1 ≤ num_reducers self →
  (∃ N, ∀ fuel, (N ≤ fuel)%nat →
     is_Some (run fuel sm sr self
                (prepare_input_data
                   (PassengerDataParser.parse fromtimestamp rows))
                PassengerFlightCountMapper PassengerFlightCountReducer))
  ∧ ∀ fuel self' res,
      run fuel sm sr self
        (prepare_input_data (PassengerDataParser.parse fromtimestamp rows))
        PassengerFlightCountMapper PassengerFlightCountReducer
      = Some (self', res) →
      sum res.*2
      = Z.of_nat (length (PassengerDataParser.parse fromtimestamp rows))
      ∧ ∀ k n, (k, n) ∈ res →
          ∃ p, k = PassengerDataParser.Str p
               ∧ re_match PassengerDataParser.PASSENGER_ID_PATTERN p = true
               ∧ n = Z.of_nat
                       (flights_of (PassengerDataParser.Str p)
                          (PassengerDataParser.parse fromtimestamp rows))
               ∧ 1 ≤ n.
Proof.
  intros Hnm Hnr. split; [apply run_returns|].
  intros fuel self' res Hrun.
  destruct (flight_counts_of_run sm sr self _ Hnm Hnr fuel self' res
              Hrun) as (_ & Hcount & Hsum).
  rewrite prepare_input_data_records in Hsum.
  setoid_rewrite prepare_input_data_records in Hcount.
  split.
  - rewrite Hsum, filter_all; [done|].
    apply Forall_forall. intros record Hin.
    apply parse_records_valid
      in Hin as (p & f & a & b & dt & ft & t & d & _ & -> & _).
    by eexists.
  - intros k n [-> Hpos]%Hcount.
    destruct (filter_nonempty
                (λ record : gmap string (PassengerDataParser.field datetime),
                   record !! "passenger_id" = Some k)
                (PassengerDataParser.parse fromtimestamp rows))
      as (record & Hin & Hk).
    { unfold flights_of in Hpos. lia. }
    apply parse_records_valid
      in Hin as (p & f & a & b & dt & ft & t & d & _ & -> & Hv & _).
    assert (k = PassengerDataParser.Str p) as -> by (by injection Hk).
    apply validate_passenger_accepts in Hv as (Hp & _).
    exists p. split_and!; try done. lia.
Qed.

End EndToEnd.

(** * The patterns *)

Lemma at_end_cases (rest : list ascii) :
  at_end rest = true ↔ rest = [] ∨ rest = [newline].
Proof.
  destruct rest as [|c [|c' rest]]; simpl.
  - split; [by left|done].
  - destruct (Ascii.eqb_spec c newline) as [->|Hne].
    + split; [by right|done].
    + split; [done|]. intros [|[= ->]]; done.
  - split; [done|]. by intros [|].
Qed.

(** X18.  [^[A-Z]{3}$], the pattern of the airport codes of both parsers,
    accepts exactly the strings of three capital letters and these
    strings followed by one newline: [$] also matches before a newline
    that ends the string, so such a field passes the validation. *)
Theorem airport_code_shape (s : string) :
  (re_match AIRPORT_CODE_PATTERN s = true ↔
   ∃ c1 c2 c3 rest,
     String.list_ascii_of_string s = c1 :: c2 :: c3 :: rest
     ∧ upper c1 = true ∧ upper c2 = true ∧ upper c3 = true
     ∧ (rest = [] ∨ rest = [newline]))
  ∧ re_match PassengerDataParser.AIRPORT_CODE_PATTERN s
    = re_match AIRPORT_CODE_PATTERN s.
Proof.
  split; [|done].
  unfold re_match, AIRPORT_CODE_PATTERN.
  generalize (String.list_ascii_of_string s). intros l. split.
  - intros (rest & Hin & Hend)%existsb_exists.
    apply list_elem_of_In in Hin. cbn [match_prefix] in Hin.
    apply rep_prefix_spec in Hin as (pre & -> & Hcls & Hlo & Hhi).
    specialize (Hhi 3%nat eq_refl).
    destruct pre as [|c1 [|c2 [|c3 [|? ?]]]]; simpl in Hlo, Hhi; try lia.
    simpl in Hcls. apply andb_prop in Hcls as [H1 Hcls].
    apply andb_prop in Hcls as [H2 Hcls].
    apply andb_prop in Hcls as [H3 _].
    exists c1, c2, c3, rest. split_and!; try done.
    by apply at_end_cases.
  - intros (c1 & c2 & c3 & rest & -> & H1 & H2 & H3 & Hrest).
    apply existsb_exists. exists rest. split.
    + apply list_elem_of_In. cbn [match_prefix rep_prefix app fmap pred].
      rewrite H1. cbn [rep_prefix app option_fmap option_map fmap pred].
      rewrite H2. cbn [rep_prefix app option_fmap option_map fmap pred].
      rewrite H3. cbn [rep_prefix app option_fmap option_map fmap pred].
      destruct rest; left.
    + by apply at_end_cases.
Qed.

(** * The theorems at concrete inputs *)

Lemma commutative_reducer_determinism_witness :
  ∃ self1' res1 self2' res2,
    run 200 round_robin round_robin (init 3 2) five_records
        PassengerFlightCountMapper PassengerFlightCountReducer
      = Some (self1', res1)
    ∧ run 200 first_running round_robin (init 1 4) five_records
        PassengerFlightCountMapper PassengerFlightCountReducer
      = Some (self2', res2)
    ∧ res1 ≡ₚ res2.
Proof.
  eexists _, _, _, _. split; [vm_compute; reflexivity|].
  split; [vm_compute; reflexivity|].
  refine (proj2 (commutative_reducer_determinism round_robin round_robin
                   first_running round_robin (init 3 2) (init 1 4)
                   five_records PassengerFlightCountMapper
                   PassengerFlightCountReducer _ _ _ _ _ _ _)
            200%nat 200%nat _ _ _ _ _ _).
  all: try (vm_compute; reflexivity).
  - simpl; lia.
  - simpl; lia.
  - simpl; lia.
  - simpl; lia.
  - apply count_mapper_never_empty.
  - intros k vs. done.
  - apply count_reducer_insensitive.
Defined.

Lemma run_is_grouped_reduction_witness :
  ∃ self' res,
    run 200 round_robin first_running (init 2 2) five_records
        PassengerFlightCountMapper PassengerFlightCountReducer
      = Some (self', res)
    ∧ res ≡ₚ reduce_groups PassengerFlightCountReducer
               (mapped PassengerFlightCountMapper five_records).
Proof.
  eexists _, _. split; [vm_compute; reflexivity|].
  refine (proj2 (run_is_grouped_reduction round_robin first_running
                   (init 2 2) five_records PassengerFlightCountMapper
                   PassengerFlightCountReducer _ _ _ _ _)
            200%nat _ _ _).
  all: try (vm_compute; reflexivity).
  - simpl; lia.
  - simpl; lia.
  - apply count_mapper_never_empty.
  - intros k vs. done.
  - apply count_reducer_insensitive.
Defined.

Lemma reduce_error_contained_witness :
  ∃ self' res,
    run 200 round_robin round_robin (init 1 1) two_tasks
        yield_then_raise sum_then_raise
      = Some (self', res)
    ∧ reduce_queue self' = []
    ∧ res ≡ₚ reduced sum_then_raise (shuffle_dict self').
Proof.
  destruct (run 200 round_robin round_robin (init 1 1) two_tasks
              yield_then_raise sum_then_raise)
    as [[self' res]|] eqn:Hrun; [|vm_compute in Hrun; discriminate Hrun].
  exists self', res. split; [reflexivity|].
  assert (1 ≤ num_reducers (init (K := Z) (V := string) (K' := string)
                              (V' := Z) (R := string * Z) 1 1)) as Hnr
    by (simpl; lia).
  destruct (proj2 (reduce_error_contained round_robin round_robin (init 1 1)
                     two_tasks yield_then_raise sum_then_raise Hnr)
              200%nat self' res Hrun)
    as (Hq & Hres & _).
  - apply Forall_forall. intros [k vs] _. done.
  - split; [exact Hq|exact Hres].
Defined.

Lemma pool_outlives_queue_empty_witness :
  ∃ self' res,
    run 200 round_robin round_robin (init 2 1) two_tasks
        empty_on_first PassengerFlightCountReducer
      = Some (self', res)
    ∧ map_queue self' = []
    ∧ pairs_of (shuffle_dict self') ≡ₚ mapped empty_on_first two_tasks.
Proof.
  eexists _, _. split; [vm_compute; reflexivity|].
  refine (proj2 (pool_outlives_queue_empty round_robin round_robin (init 2 1)
                   two_tasks empty_on_first PassengerFlightCountReducer _)
            200%nat _ _ _).
  all: vm_compute; reflexivity.
Defined.

Lemma single_thread_run_is_sequential_witness :
  ∃ self' res,
    run 200 round_robin round_robin (init 1 1) five_records
        PassengerFlightCountMapper PassengerFlightCountReducer
      = Some (self', res)
    ∧ shuffle_dict self'
      = group (mapped PassengerFlightCountMapper five_records)
    ∧ res = [("P1", 3); ("P2", 2)].
Proof.
  destruct (run 200 round_robin round_robin (init 1 1) five_records
              PassengerFlightCountMapper PassengerFlightCountReducer)
    as [[self' res]|] eqn:Hrun; [|vm_compute in Hrun; discriminate Hrun].
  exists self', res. split; [reflexivity|].
  destruct (proj2 (single_thread_run_is_sequential round_robin round_robin
                     (init 1 1) five_records PassengerFlightCountMapper
                     PassengerFlightCountReducer eq_refl eq_refl
                     (count_mapper_never_empty five_records)
                     ltac:(intros k vs; done))
              200%nat self' res Hrun)
    as [Hd Hres].
  split; [exact Hd|]. rewrite Hres. vm_compute. reflexivity.
Defined.

Lemma passenger_flight_counts_witness :
  ∃ self' res,
    run 200 round_robin round_robin (init 3 2) five_records
        PassengerFlightCountMapper PassengerFlightCountReducer
      = Some (self', res)
    ∧ NoDup res.*1
    ∧ ∀ p n, (p, n) ∈ res
             ↔ n = Z.of_nat (flights_of p five_records.*2) ∧ 0 < n.
Proof.
  destruct (run 200 round_robin round_robin (init 3 2) five_records
              PassengerFlightCountMapper PassengerFlightCountReducer)
    as [[self' res]|] eqn:Hrun; [|vm_compute in Hrun; discriminate Hrun].
  exists self', res. split; [reflexivity|].
  destruct (proj2 (passenger_flight_counts round_robin round_robin (init 3 2)
                     five_records ltac:(simpl; lia) ltac:(simpl; lia))
              200%nat self' res Hrun)
    as (Hnd & Hcount & _).
  split; [exact Hnd|exact Hcount].
Defined.

Lemma prepared_input_counts_witness :
  (prepare_input_data five_records.*2).*1 = [0; 1; 2; 3; 4]
  ∧ ∃ self' res,
      run 200 round_robin round_robin (init 3 2)
          (prepare_input_data five_records.*2)
          PassengerFlightCountMapper PassengerFlightCountReducer
        = Some (self', res)
      ∧ ∀ p n, (p, n) ∈ res
               ↔ n = Z.of_nat (flights_of p five_records.*2) ∧ 0 < n.
Proof.
  destruct (prepared_input_counts round_robin round_robin (init 3 2)
              five_records.*2 ltac:(simpl; lia) ltac:(simpl; lia))
    as (_ & Hkeys & _ & Hcount).
  split; [exact Hkeys|].
  destruct (run 200 round_robin round_robin (init 3 2)
              (prepare_input_data five_records.*2)
              PassengerFlightCountMapper PassengerFlightCountReducer)
    as [[self' res]|] eqn:Hrun; [|vm_compute in Hrun; discriminate Hrun].
  exists self', res. split; [reflexivity|].
  exact (Hcount 200%nat self' res Hrun).
Defined.

Lemma ranking_shows_top_flyers_witness :
  ∃ shown hidden,
    rows_of (print_results "Most Frequent Flyers" three_results 2)
      = imap (λ i x, (Z.of_nat i + 1, x.1, x.2)) shown
    ∧ shown ++ hidden ≡ₚ three_results
    ∧ length shown = 2%nat
    ∧ ∀ x y, x ∈ shown → y ∈ hidden → y.2 ≤ x.2.
Proof.
  destruct (ranking_shows_top_flyers three_results 2 ltac:(lia))
    as (shown & hidden & Hrows & Hperm & Hlen & _ & Hle & _).
  exists shown, hidden. split_and!; [exact Hrows|exact Hperm|exact Hlen|exact Hle].
Defined.

Lemma negative_top_n_drops_last_rows_witness :
  ∃ shown hidden,
    rows_of (print_results "Most Frequent Flyers" three_results (-1))
      = imap (λ i x, (Z.of_nat i + 1, x.1, x.2)) shown
    ∧ shown ++ hidden = sorted_by_count three_results
    ∧ length hidden = 1%nat.
Proof.
  destruct (negative_top_n_drops_last_rows three_results (-1) ltac:(lia))
    as (shown & hidden & Hrows & Happ & Hlen & _).
  exists shown, hidden. split_and!; [exact Hrows|exact Happ|exact Hlen].
Defined.

Lemma parsed_airports_valid_witness :
  ∃ a lat_s lon_s,
    parse airport_rows !! "LHR" = Some a
    ∧ [name a; "LHR"; lat_s; lon_s] ∈ airport_rows
    ∧ (latitude a <= inject_Z 90)%Q.
Proof.
  destruct (parse airport_rows !! "LHR") as [a|] eqn:Ha;
    [|vm_compute in Ha; discriminate Ha].
  destruct (parsed_airports_valid airport_rows "LHR" a Ha)
    as (lat_s & lon_s & Hin & _ & _ & _ & _ & _ & _ & Hhi).
  exists a, lat_s, lon_s. split_and!; [reflexivity|exact Hin|exact Hhi].
Defined.

Lemma invalid_airport_row_ignored_witness :
  _validate_airport_record 1 "NOWHERE" "NWH" "91.0" "0.0" = false
  ∧ parse (airport_rows ++ north_of_the_pole :: airport_rows)
    = parse (airport_rows ++ airport_rows).
Proof.
  split; [vm_compute; reflexivity|].
  apply (invalid_airport_row_ignored airport_rows airport_rows
           north_of_the_pole).
  vm_compute. reflexivity.
Defined.

Lemma last_airport_row_wins_witness :
  ∃ lat_float lon_float,
    float "51.4775" = Some lat_float ∧ float "500.0" = Some lon_float
    ∧ parse ([["HEATHROW"; "LHR"; "51.4775"; "-0.461389"]]
             ++ ["LONDON HEATHROW"; "LHR"; "51.4775"; "500.0"]
                :: [["GATWICK"; "LGW"; "51.148056"; "-0.190278"]]) !! "LHR"
      = Some {| name := "LONDON HEATHROW"; code := "LHR";
                latitude := lat_float; longitude := lon_float |}.
Proof.
  apply (last_airport_row_wins
           [["HEATHROW"; "LHR"; "51.4775"; "-0.461389"]]
           [["GATWICK"; "LGW"; "51.148056"; "-0.190278"]]
           "LONDON HEATHROW" "LHR" "51.4775" "500.0").
  - vm_compute. reflexivity.
  - intros nm' lat_s' lon_s' Hin.
    apply list_elem_of_singleton in Hin. discriminate Hin.
Defined.




Lemma parsed_file_counts_witness :
  ∃ self' res,
    run 200 round_robin round_robin (init 3 2)
        (prepare_input_data
           (PassengerDataParser.parse utc_seconds passenger_rows))
        PassengerFlightCountMapper PassengerFlightCountReducer
      = Some (self', res)
    ∧ sum res.*2 = 3.
Proof.
  destruct (run 200 round_robin round_robin (init 3 2)
              (prepare_input_data
                 (PassengerDataParser.parse utc_seconds passenger_rows))
              PassengerFlightCountMapper PassengerFlightCountReducer)
    as [[self' res]|] eqn:Hrun; [|vm_compute in Hrun; discriminate Hrun].
  exists self', res. split; [reflexivity|].
  destruct (proj2 (parsed_file_counts utc_seconds round_robin round_robin
                     (init 3 2) passenger_rows
                     ltac:(simpl; lia) ltac:(simpl; lia))
              200%nat self' res Hrun)
    as [Hsum _].
  rewrite Hsum. vm_compute. reflexivity.
Defined.
